(** * cleanheap: pruning weak-retainer edges from a heap snapshot

    A shallow embedding of [src/index.ts] (the walker [Snapshot.clean],
    [cleanupRetainers], the classifier [getNodeName], [iterateBySlice]) and of
    the step-wise serializer [writeOutput] of the second variant of the same
    file, followed by the properties of the specification that were settled
    against it.

    Conventions of the embedding.
    - A JavaScript number is an unbounded integer or NaN ([Js.number]);
      fractions, infinities and the 2^53 precision limit are out of scope.
    - A JavaScript array is a list of slots; a slot is [None] for a hole of a
      sparse array and [Some v] for a stored value.
    - A call either returns, throws a TypeError, or runs forever
      ([Js.outcome]).  Loops that the source writes with [i += sliceSize] get
      exactly the fuel that suffices whenever [sliceSize] is positive, so
      [Diverges] is produced only where the source loop does not end.
    - In-place mutation of [data] is explicit state passing. *)

From Stdlib Require Import ZArith List String Ascii Bool Lia DecimalString.
From Stdlib Require DecimalFacts DecimalPos.
Import ListNotations.
Open Scope Z_scope.

(** ** JavaScript values, numbers, arrays and outcomes *)

Module Js.

Inductive value : Type :=
| Num (z : Z)
| NaN
| Null
| Undefined.

Inductive number : Type :=
| Int (z : Z)
| NotANumber.

(** ToNumber restricted to the values above. *)
Definition ToNumber (v : value) : number :=
  match v with
  | Num z => Int z
  | NaN => NotANumber
  | Null => Int 0
  | Undefined => NotANumber
  end.

Definition of_number (n : number) : value :=
  match n with
  | Int z => Num z
  | NotANumber => NaN
  end.

(** [a + b] on numbers. *)
Definition add (a b : number) : number :=
  match a, b with
  | Int x, Int y => Int (x + y)
  | _, _ => NotANumber
  end.

(** [a - b] on numbers. *)
Definition sub (a b : number) : number :=
  match a, b with
  | Int x, Int y => Int (x - y)
  | _, _ => NotANumber
  end.

(** A sparse array: [None] is a hole. *)
Definition slot : Type := option value.
Definition array : Type := list slot.

Definition length {A} (a : list A) : Z := Z.of_nat (List.length a).

(** [a[i]] for an integer [i]: out of range and holes read as undefined. *)
Definition get_int (a : array) (i : Z) : value :=
  if (0 <=? i) && (i <? length a)
  then match nth_error a (Z.to_nat i) with
       | Some (Some v) => v
       | _ => Undefined
       end
  else Undefined.

(** [a[k]] for a numeric key; the key NaN names no element. *)
Definition get (a : array) (k : number) : value :=
  match k with
  | Int i => get_int a i
  | NotANumber => Undefined
  end.

(** Overwrite position [n] of a list that is long enough. *)
Fixpoint update {A} (l : list A) (n : nat) (x : A) : list A :=
  match l, n with
  | [], _ => []
  | _ :: t, O => x :: t
  | h :: t, S m => h :: update t m x
  end.

(** [a[i] = v]: inside the array the slot is overwritten; past its end the
    array grows and the skipped positions are holes; a negative [i] defines
    a property that is not an element and leaves the elements alone. *)
Definition set (a : array) (i : Z) (v : value) : array :=
  if i <? 0 then a
  else if i <? length a then update a (Z.to_nat i) (Some v)
  else a ++ repeat None (Z.to_nat (i - length a)) ++ [Some v].

(** [a.filter(v => v !== null)]: holes are skipped by [filter], stored
    nulls are rejected by the callback, everything else is kept. *)
Fixpoint filter_not_null (a : array) : array :=
  match a with
  | [] => []
  | None :: t => filter_not_null t
  | Some Null :: t => filter_not_null t
  | Some v :: t => Some v :: filter_not_null t
  end.

Inductive outcome (A : Type) : Type :=
| Ret (a : A)
| Throws
| Diverges.
Arguments Ret {A} a.
Arguments Throws {A}.
Arguments Diverges {A}.

Definition bind {A B} (m : outcome A) (k : A -> outcome B) : outcome B :=
  match m with
  | Ret a => k a
  | Throws => Throws
  | Diverges => Diverges
  end.

End Js.

Import Js.

Notation "x <- m ;; k" := (Js.bind m (fun x => k))
  (at level 61, m at next level, right associativity).

(** ** The snapshot ([src/-types.ts]) *)

(** An entry of [node_types] or [edge_types]: a type name or a list of them. *)
Inductive type_entry : Type :=
| TName (s : string)
| TNames (l : list string).

Record HeapSnapshotMeta : Type := {
  node_fields : list string;
  node_types : list type_entry;
  edge_fields : list string;
  edge_types : list type_entry
}.

Record HeapSnapshotHeader : Type := {
  meta : HeapSnapshotMeta;
  node_count : Z;
  edge_count : Z
}.

(** The values the remaining top-level keys can hold. *)
#[warnings="-register-all"]
Inductive json : Type :=
| JNull
| JBool (b : bool)
| JNumber (z : Z)
| JString (s : string)
| JArray (l : list json)
| JObject (l : list (string * json)).

Record HeapSnapshot : Type := {
  snapshot : HeapSnapshotHeader;
  nodes : array;
  edges : array;
  strings : list string;
  extras : list (string * json)
}.

Definition set_edge_count (h : HeapSnapshotHeader) (c : Z) : HeapSnapshotHeader :=
  {| meta := meta h; node_count := node_count h; edge_count := c |}.

Definition with_nodes (d : HeapSnapshot) (a : array) : HeapSnapshot :=
  {| snapshot := snapshot d; nodes := a; edges := edges d;
     strings := strings d; extras := extras d |}.

Definition with_edges (d : HeapSnapshot) (a : array) : HeapSnapshot :=
  {| snapshot := snapshot d; nodes := nodes d; edges := a;
     strings := strings d; extras := extras d |}.

Definition with_edge_count (d : HeapSnapshot) (c : Z) : HeapSnapshot :=
  {| snapshot := set_edge_count (snapshot d) c; nodes := nodes d;
     edges := edges d; strings := strings d; extras := extras d |}.

(** ** Schema resolution *)

(** [Object.fromEntries(fields.map((field, offset) => [field, offset]))]:
    the entries in order, numbered from [offset]. *)
Fixpoint entries_from (offset : Z) (fields : list string) : list (string * Z) :=
  match fields with
  | [] => []
  | f :: t => (f, offset) :: entries_from (offset + 1) t
  end.

Definition fieldOffsets (fields : list string) : list (string * Z) :=
  entries_from 0 fields.

(** Property read [o.key] on an object built by [Object.fromEntries]: a later
    entry with the same key has overwritten an earlier one. *)
Fixpoint prop (o : list (string * Z)) (key : string) : option Z :=
  match o with
  | [] => None
  | (k, v) :: t =>
      match prop t key with
      | Some v' => Some v'
      | None => if String.eqb k key then Some v else None
      end
  end.

(** What [meta.node_types[offset]] can be at run time, whatever the cast to
    [string[]] says. *)
Inductive type_enum : Type :=
| EUndefined
| EName (s : string)
| ENames (l : list string).

Definition nth_Z {A} (l : list A) (i : Z) : option A :=
  if (0 <=? i) && (i <? Js.length l) then nth_error l (Z.to_nat i) else None.

(** [types[offset]] where [offset] is a resolved field offset or undefined. *)
Definition type_table (types : list type_entry) (offset : option Z) : type_enum :=
  match offset with
  | None => EUndefined
  | Some i =>
      match nth_Z types i with
      | Some (TName s) => EName s
      | Some (TNames l) => ENames l
      | None => EUndefined
      end
  end.

(** ** class Snapshot *)

Record Snapshot : Type := {
  data : HeapSnapshot;
  nodeOffsets : list (string * Z);
  edgeOffsets : list (string * Z);
  nodeTypeEnum : type_enum;
  edgeTypeEnum : type_enum
}.

(** [new Snapshot(data)]. *)
Definition new_Snapshot (d : HeapSnapshot) : Snapshot :=
  let m := meta (snapshot d) in
  let nodeOffsets := fieldOffsets (node_fields m) in
  let edgeOffsets := fieldOffsets (edge_fields m) in
  {| data := d;
     nodeOffsets := nodeOffsets;
     edgeOffsets := edgeOffsets;
     nodeTypeEnum := type_table (node_types m) (prop nodeOffsets "type");
     edgeTypeEnum := type_table (edge_types m) (prop edgeOffsets "type") |}.

Definition with_data (w : Snapshot) (d : HeapSnapshot) : Snapshot :=
  {| data := d;
     nodeOffsets := nodeOffsets w;
     edgeOffsets := edgeOffsets w;
     nodeTypeEnum := nodeTypeEnum w;
     edgeTypeEnum := edgeTypeEnum w |}.

(** ** The retainer classifier *)

Definition WeakRetainerNames : list string :=
  ["WeakMap"; "WeakSet"; "WeakRef"; "DebugWeakCache"; "DebugWeakMap"]%string.

(** [WeakRetainerNames.has(name)]. *)
Definition has (set : list string) (name : string) : bool :=
  existsb (String.eqb name) set.

(** What [getNodeName] can hand back: a string, null, or undefined when the
    string table has no such entry. *)
Inductive node_name : Type :=
| NameString (s : string)
| NameNull
| NameUndefined.

(** A field offset that may be undefined, as a number. *)
Definition offset_number (o : option Z) : number :=
  match o with
  | Some i => Int i
  | None => NotANumber
  end.

(** [wrapper.nodeTypeEnum[v]]: reading a property of undefined throws; a
    string is indexed by character; a list by position. *)
Definition enum_lookup (e : type_enum) (v : value) : outcome (option string) :=
  match e with
  | EUndefined => Throws
  | EName s =>
      match v with
      | Num i => Ret (match (if (0 <=? i) then String.get (Z.to_nat i) s else None) with
                      | Some c => Some (String c EmptyString)
                      | None => None
                      end)
      | _ => Ret None
      end
  | ENames l =>
      match v with
      | Num i => Ret (nth_Z l i)
      | _ => Ret None
      end
  end.

(** [strings[v]]. *)
Definition string_lookup (strs : list string) (v : value) : node_name :=
  match v with
  | Num i => match nth_Z strs i with
             | Some s => NameString s
             | None => NameUndefined
             end
  | _ => NameUndefined
  end.

Definition is_object (t : option string) : bool :=
  match t with
  | Some s => String.eqb s "object"
  | None => false
  end.

Definition getNodeName (wrapper : Snapshot) (nodeIndex : Z) : outcome node_name :=
  let nodes := nodes (data wrapper) in
  let strings := strings (data wrapper) in
  type <- enum_lookup (nodeTypeEnum wrapper)
            (Js.get nodes (Js.add (Int nodeIndex)
                             (offset_number (prop (nodeOffsets wrapper) "type")))) ;;
  if negb (is_object type) then Ret NameNull
  else Ret (string_lookup strings
              (Js.get nodes (Js.add (Int nodeIndex)
                               (offset_number (prop (nodeOffsets wrapper) "name"))))).

(** [!nodeName]: null, undefined and the empty string are falsy. *)
Definition falsy (n : node_name) : bool :=
  match n with
  | NameString s => String.eqb s ""
  | NameNull => true
  | NameUndefined => true
  end.

(** The guard of the walker's callback,
    [!nodeName || !WeakRetainerNames.has(nodeName)], negated: the node goes on
    to be pruned. *)
Definition isWeakRetainer (n : node_name) : bool :=
  negb (falsy n
        || negb (match n with
                 | NameString s => has WeakRetainerNames s
                 | _ => false
                 end)).

(** [getField(nodes, offset, index)]. *)
Definition getField (nodes : array) (offset index : Z) : value :=
  Js.get_int nodes (offset + index).

(** ** Iteration by slices *)

(** The loop [for (let i = start; i < end; i += sliceSize) callback(i, i + sliceSize)]
    from position [i], with a bound on the number of rounds. *)
Fixpoint slices {S : Type} (fuel : nat) (i end_ sliceSize : Z)
    (callback : Z -> Z -> S -> outcome S) (s : S) : outcome S :=
  if i <? end_ then
    match fuel with
    | O => Diverges
    | Datatypes.S fuel' =>
        s' <- callback i (i + sliceSize) s ;;
        slices fuel' (i + sliceSize) end_ sliceSize callback s'
    end
  else Ret s.

(** [iterateBySlice(start, end, sliceSize, callback)].  A comparison with NaN
    is false, so a NaN bound means no round at all.  [end - start] rounds are
    enough for any positive [sliceSize]; with [sliceSize = 0] and
    [start < end] the source loop never ends. *)
Definition iterateBySlice {S : Type} (start end_ : number) (sliceSize : Z)
    (callback : Z -> Z -> S -> outcome S) (s : S) : outcome S :=
  match start, end_ with
  | Int a, Int b => slices (Z.to_nat (b - a)) a b sliceSize callback s
  | _, _ => Ret s
  end.

(** ** The edge pruner *)

(** [for (let i = edgeStart; i < edgeEnd; i++) edges[i] = null], as [count]
    writes from [i] on. *)
Fixpoint null_from (count : nat) (i : Z) (edges : array) : array :=
  match count with
  | O => edges
  | Datatypes.S c => null_from c (i + 1) (Js.set edges i Null)
  end.

Definition null_range (edgeStart edgeEnd : Z) (edges : array) : array :=
  null_from (Z.to_nat (edgeEnd - edgeStart)) edgeStart edges.

(** [nodes[i]--]. *)
Definition decrement_at (nodes : array) (i : Z) : array :=
  Js.set nodes i (Js.of_number (Js.sub (Js.ToNumber (Js.get_int nodes i)) (Int 1))).

(** The callback [cleanupRetainers] hands to [iterateBySlice]. *)
Definition remove_edge (edgeCount startOffset : Z) (edgeStart edgeEnd : Z)
    (d : HeapSnapshot) : outcome HeapSnapshot :=
  let d1 := with_edges d (null_range edgeStart edgeEnd (edges d)) in
  let d2 := with_edge_count d1 (edge_count (snapshot d1) - 1) in
  Ret (with_nodes d2 (decrement_at (nodes d2) (startOffset + edgeCount))).

Definition cleanupRetainers (d : HeapSnapshot) (edgeCount startOffset : Z)
    (start nextEdgeIndex : number) (edgeFieldsCount : Z) : outcome HeapSnapshot :=
  iterateBySlice start nextEdgeIndex edgeFieldsCount
    (remove_edge edgeCount startOffset) d.

(** ** The graph walker: [Snapshot.clean] *)

(** The variables the walker's callback closes over and mutates. *)
Record walk : Type := {
  nextEdgeIndex : number;
  totalObjects : Z;
  weakRetainers : Z;
  this : Snapshot
}.

(** The constants [clean] computes before the loop. *)
Record consts : Type := {
  fieldSliceSize : Z;
  edgeCount : Z;
  edgeFieldsCount : Z
}.

Definition clean_consts (w : Snapshot) : consts :=
  {| fieldSliceSize := Js.length (node_fields (meta (snapshot (data w))));
     edgeCount := edge_count (snapshot (data w));
     edgeFieldsCount := Js.length (edge_fields (meta (snapshot (data w)))) |}.

(** The value the callback binds to [ownedEdgeCount]. *)
Definition ownedEdgeCount (c : consts) (w : Snapshot) (startOffset : Z) : value :=
  getField (nodes (data w)) startOffset (edgeCount c).

(** The value the callback assigns to [nextEdgeIndex]. *)
Definition advance (c : consts) (st : walk) (startOffset : Z) : number :=
  Js.add (Js.add (nextEdgeIndex st)
            (Js.ToNumber (ownedEdgeCount c (this st) startOffset)))
         (Int (edgeFieldsCount c)).

(** The callback of the first pass. *)
Definition visit (c : consts) (startOffset endOffset : Z) (st : walk) : outcome walk :=
  let start := nextEdgeIndex st in
  let next := advance c st startOffset in
  let total := totalObjects st + 1 in
  nodeName <- getNodeName (this st) startOffset ;;
  if negb (isWeakRetainer nodeName) then
    Ret {| nextEdgeIndex := next; totalObjects := total;
           weakRetainers := weakRetainers st; this := this st |}
  else
    d <- cleanupRetainers (data (this st)) (edgeCount c) startOffset start next
           (edgeFieldsCount c) ;;
    Ret {| nextEdgeIndex := next; totalObjects := total;
           weakRetainers := weakRetainers st + 1; this := with_data (this st) d |}.

Definition walk_init (w : Snapshot) : walk :=
  {| nextEdgeIndex := Int 0; totalObjects := 0; weakRetainers := 0; this := w |}.

(** The first pass, over all node slices. *)
Definition first_pass (w : Snapshot) : outcome walk :=
  iterateBySlice (Int 0) (Int (Js.length (nodes (data w))))
    (fieldSliceSize (clean_consts w)) (visit (clean_consts w)) (walk_init w).

(** The second pass and the result. *)
Definition compact (st : walk) : bool * Snapshot :=
  let d := data (this st) in
  (0 <? weakRetainers st,
   with_data (this st) (with_edges d (Js.filter_not_null (edges d)))).

Definition clean (w : Snapshot) : outcome (bool * Snapshot) :=
  st <- first_pass w ;;
  Ret (compact st).

(** [new Snapshot(data)] followed by [clean()], keeping the data. *)
Definition clean_data (d : HeapSnapshot) : outcome (bool * HeapSnapshot) :=
  r <- clean (new_Snapshot d) ;;
  Ret (fst r, data (snd r)).

(** ** Serialization *)

Open Scope string_scope.

Definition dq : ascii := "034"%char.
Definition backslash : ascii := "092"%char.

Definition string_of_Z (z : Z) : string := NilZero.string_of_int (Z.to_int z).

Definition hex_digit (n : nat) : ascii :=
  if (n <? 10)%nat then ascii_of_nat (48 + n) else ascii_of_nat (87 + n).

(** The escape [JSON.stringify] writes for one character of a string. *)
Definition escape_char (c : ascii) : string :=
  let n := nat_of_ascii c in
  if Ascii.eqb c dq then String backslash (String dq EmptyString)
  else if Ascii.eqb c backslash then String backslash (String backslash EmptyString)
  else if (n =? 8)%nat then String backslash "b"
  else if (n =? 9)%nat then String backslash "t"
  else if (n =? 10)%nat then String backslash "n"
  else if (n =? 12)%nat then String backslash "f"
  else if (n =? 13)%nat then String backslash "r"
  else if (n <? 32)%nat then
    String backslash
      ("u00" ++ String (hex_digit (n / 16)) (String (hex_digit (n mod 16)) EmptyString))
  else String c EmptyString.

Fixpoint escape (s : string) : string :=
  match s with
  | EmptyString => EmptyString
  | String c t => escape_char c ++ escape t
  end.

Definition quote (s : string) : string :=
  String dq (escape s) ++ String dq EmptyString.

Fixpoint join (sep : string) (l : list string) : string :=
  match l with
  | [] => EmptyString
  | [x] => x
  | x :: t => x ++ sep ++ join sep t
  end.

(** [JSON.stringify(value)], which writes no white space. *)
Fixpoint stringify (j : json) : string :=
  match j with
  | JNull => "null"
  | JBool true => "true"
  | JBool false => "false"
  | JNumber z => string_of_Z z
  | JString s => quote s
  | JArray l => "[" ++ join "," (map stringify l) ++ "]"
  | JObject l =>
      "{" ++ join "," (map (fun kv => let '(k, v) := kv in
                                      quote k ++ ":" ++ stringify v) l) ++ "}"
  end.

(** A slot of an array as [JSON.stringify] sees it: holes, undefined and NaN
    are written as null. *)
Definition json_of_slot (s : slot) : json :=
  match s with
  | Some (Num z) => JNumber z
  | _ => JNull
  end.

Definition json_of_array (a : array) : json := JArray (map json_of_slot a).

Definition json_of_strings (l : list string) : json := JArray (map JString l).

Definition json_of_type_entry (t : type_entry) : json :=
  match t with
  | TName s => JString s
  | TNames l => json_of_strings l
  end.

(** The header object, with its keys in the order V8 writes them. *)
Definition json_of_header (h : HeapSnapshotHeader) : json :=
  JObject
    [("meta"%string,
      JObject [("node_fields"%string, json_of_strings (node_fields (meta h)));
               ("node_types"%string, JArray (map json_of_type_entry (node_types (meta h))));
               ("edge_fields"%string, json_of_strings (edge_fields (meta h)));
               ("edge_types"%string, JArray (map json_of_type_entry (edge_types (meta h))))]);
     ("node_count"%string, JNumber (node_count h));
     ("edge_count"%string, JNumber (edge_count h))].

(** The own enumerable properties of [data], in order. *)
Definition data_entries (d : HeapSnapshot) : list (string * json) :=
  ([("snapshot"%string, json_of_header (snapshot d));
   ("nodes"%string, json_of_array (nodes d));
   ("edges"%string, json_of_array (edges d));
   ("strings"%string, json_of_strings (strings d))] ++ extras d)%list.

Definition json_of_data (d : HeapSnapshot) : json := JObject (data_entries d).

(** The chunk [writeOutput] writes for one of the remaining keys, nothing
    for the four keys already written. *)
Definition write_other (kv : string * json) : string :=
  let '(key, v) := kv in
  if String.eqb key "snapshot" || String.eqb key "nodes"
     || String.eqb key "edges" || String.eqb key "strings"
  then EmptyString
  else String dq key ++ String dq ": " ++ stringify v ++ ",".

(** [writeOutput(outputFile, data)]: everything handed to [writer.write], in
    order. *)
Definition writeOutput (d : HeapSnapshot) : string :=
  ("{ " ++ String dq "meta" ++ String dq ": " ++ stringify (json_of_header (snapshot d)) ++ ",")
  ++ (String dq "nodes" ++ String dq ": " ++ stringify (json_of_array (nodes d)) ++ ",")
  ++ (String dq "edges" ++ String dq ": " ++ stringify (json_of_array (edges d)) ++ "}")
  ++ (String dq "strings" ++ String dq ": " ++ stringify (json_of_strings (strings d)) ++ "}")
  ++ concat EmptyString (map write_other (data_entries d)).

Close Scope string_scope.

(** ** main *)

(** The lines [main] reports once the snapshot is parsed (the progress line
    [clean] prints about the retainers it removed is left out). *)
Inductive message : Type :=
| SnapshotParsed
| SnapshotWasAlreadyClean
| SnapshotCleaned
| SnapshotWritten
| SparklingClean.

Inductive effect : Type :=
| Log (m : message)
| FileWrite (content : string).

(** [main] of [src/index.ts], from [new Snapshot(data)] on. *)
Definition main (d : HeapSnapshot) : outcome (list effect) :=
  let snapshot := new_Snapshot d in
  r <- clean snapshot ;;
  let isDirty := fst r in
  if negb isDirty then
    Ret [Log SnapshotParsed; Log SnapshotWasAlreadyClean; Log SparklingClean]
  else
    Ret [Log SnapshotParsed; Log SnapshotCleaned;
         FileWrite (stringify (json_of_data (data (snd r))));
         Log SnapshotWritten; Log SparklingClean].

Definition writes (l : list effect) : list string :=
  flat_map (fun e => match e with FileWrite s => [s] | Log _ => [] end) l.

(** ** A recognizer of JSON texts (RFC 8259) *)

Definition is_ws (c : ascii) : bool :=
  let n := nat_of_ascii c in
  ((n =? 32) || (n =? 9) || (n =? 10) || (n =? 13))%nat.

Fixpoint skip_ws (l : list ascii) : list ascii :=
  match l with
  | c :: t => if is_ws c then skip_ws t else l
  | [] => []
  end.

Definition is_digit (c : ascii) : bool :=
  let n := nat_of_ascii c in ((48 <=? n) && (n <=? 57))%nat.

Definition is_hex (c : ascii) : bool :=
  let n := nat_of_ascii c in
  (is_digit c || ((65 <=? n) && (n <=? 70)) || ((97 <=? n) && (n <=? 102)))%nat.

(** The rest of the text after the closing quote of a string whose opening
    quote has been read. *)
Fixpoint scan_string (l : list ascii) : option (list ascii) :=
  match l with
  | [] => None
  | c :: t =>
      if Ascii.eqb c dq then Some t
      else if Ascii.eqb c backslash then
        match t with
        | e :: t' =>
            if Ascii.eqb e "u" then
              match t' with
              | h1 :: ((h2 :: h3 :: h4 :: _) as t'') =>
                  if is_hex h1 && is_hex h2 && is_hex h3 && is_hex h4
                  then scan_string t'' else None
              | _ => None
              end
            else if existsb (Ascii.eqb e)
                      [dq; backslash; "/"; "b"; "f"; "n"; "r"; "t"]%char
            then scan_string t'
            else None
        | [] => None
        end
      else if (nat_of_ascii c <? 32)%nat then None
      else scan_string t
  end.

Fixpoint skip_digits (l : list ascii) : list ascii :=
  match l with
  | c :: t => if is_digit c then skip_digits t else l
  | [] => []
  end.

(** One or more digits. *)
Definition scan_digits (l : list ascii) : option (list ascii) :=
  match l with
  | c :: t => if is_digit c then Some (skip_digits t) else None
  | [] => None
  end.

Definition scan_exponent (l : list ascii) : option (list ascii) :=
  match l with
  | c :: t =>
      if Ascii.eqb c "e" || Ascii.eqb c "E" then
        match t with
        | s :: t' => if Ascii.eqb s "+" || Ascii.eqb s "-"
                     then scan_digits t' else scan_digits t
        | [] => None
        end
      else Some l
  | [] => Some l
  end.

Definition scan_fraction (l : list ascii) : option (list ascii) :=
  match l with
  | c :: t => if Ascii.eqb c "." then
                match scan_digits t with
                | Some r => scan_exponent r
                | None => None
                end
              else scan_exponent l
  | [] => Some l
  end.

Definition scan_number (l : list ascii) : option (list ascii) :=
  let unsigned l :=
    match l with
    | c :: t =>
        if Ascii.eqb c "0" then scan_fraction t
        else if is_digit c then scan_fraction (skip_digits t)
        else None
    | [] => None
    end in
  match l with
  | c :: t => if Ascii.eqb c "-" then unsigned t else unsigned l
  | [] => None
  end.

Fixpoint scan_literal (lit : string) (l : list ascii) : option (list ascii) :=
  match lit with
  | EmptyString => Some l
  | String c lit' =>
      match l with
      | c' :: t => if Ascii.eqb c c' then scan_literal lit' t else None
      | [] => None
      end
  end.

(** The rest of the text after one JSON value. *)
Fixpoint scan_value (fuel : nat) (l : list ascii) : option (list ascii) :=
  match fuel with
  | O => None
  | Datatypes.S f =>
      match skip_ws l with
      | [] => None
      | c :: t =>
          if Ascii.eqb c "{" then
            match skip_ws t with
            | c' :: t' => if Ascii.eqb c' "}" then Some t' else scan_members f (c' :: t')
            | [] => None
            end
          else if Ascii.eqb c "[" then
            match skip_ws t with
            | c' :: t' => if Ascii.eqb c' "]" then Some t' else scan_elements f (c' :: t')
            | [] => None
            end
          else if Ascii.eqb c dq then scan_string t
          else if Ascii.eqb c "t" then scan_literal "rue" t
          else if Ascii.eqb c "f" then scan_literal "alse" t
          else if Ascii.eqb c "n" then scan_literal "ull" t
          else scan_number (c :: t)
      end
  end
with scan_members (fuel : nat) (l : list ascii) : option (list ascii) :=
  match fuel with
  | O => None
  | Datatypes.S f =>
      match skip_ws l with
      | c :: t =>
          if Ascii.eqb c dq then
            match scan_string t with
            | Some r =>
                match skip_ws r with
                | c1 :: r1 =>
                    if Ascii.eqb c1 ":" then
                      match scan_value f r1 with
                      | Some r2 =>
                          match skip_ws r2 with
                          | c2 :: r3 =>
                              if Ascii.eqb c2 "," then scan_members f r3
                              else if Ascii.eqb c2 "}" then Some r3
                              else None
                          | [] => None
                          end
                      | None => None
                      end
                    else None
                | [] => None
                end
            | None => None
            end
          else None
      | [] => None
      end
  end
with scan_elements (fuel : nat) (l : list ascii) : option (list ascii) :=
  match fuel with
  | O => None
  | Datatypes.S f =>
      match scan_value f l with
      | Some r =>
          match skip_ws r with
          | c :: r1 =>
              if Ascii.eqb c "," then scan_elements f r1
              else if Ascii.eqb c "]" then Some r1
              else None
          | [] => None
          end
      | None => None
      end
  end.

(** The text is one JSON object and nothing else. *)
Definition is_json_object (s : string) : bool :=
  let l := list_ascii_of_string s in
  match skip_ws l with
  | c :: _ =>
      Ascii.eqb c "{" &&
      match scan_value (Datatypes.S (List.length l)) l with
      | Some rest => match skip_ws rest with [] => true | _ => false end
      | None => false
      end
  | [] => false
  end.

(** ** Sample snapshots *)

Definition of_list (l : list Z) : array := map (fun z => Some (Num z)) l.

Definition sample_meta : HeapSnapshotMeta :=
  {| node_fields := ["type"; "name"; "edge_count"]%string;
     node_types := [TNames ["hidden"; "object"; "native"]%string;
                    TName "string"; TName "number"];
     edge_fields := ["type"; "name_or_index"; "to_node"]%string;
     edge_types := [TNames ["context"; "element"; "property"]%string;
                    TName "string_or_number"; TName "node"] |}.

Definition sample_strings : list string := ["WeakMap"; "Foo"; "bar"]%string.

(** The scenario of the specification: node 0 is an object named WeakMap
    with 2 edges, node 1 an object named Foo with 1 edge, node 2 a native
    node without edges. *)
Definition scenario : HeapSnapshot :=
  {| snapshot := {| meta := sample_meta; node_count := 3; edge_count := 3 |};
     nodes := of_list [1; 0; 2;  1; 1; 1;  2; 2; 0];
     edges := of_list [2; 0; 3;  2; 1; 6;  2; 2; 6];
     strings := sample_strings;
     extras := [] |}.

(** Two nodes and two edges: node 0 is a WeakMap with 1 edge, node 1 an
    object named Foo with 1 edge.  The total edge count, 2, happens to be the
    offset of the field edge_count. *)
Definition pair : HeapSnapshot :=
  {| snapshot := {| meta := sample_meta; node_count := 2; edge_count := 2 |};
     nodes := of_list [1; 0; 1;  1; 1; 1];
     edges := of_list [2; 0; 3;  2; 1; 0];
     strings := sample_strings;
     extras := [] |}.

(** One node named Foo with 2 edges; again the total is the offset of
    edge_count. *)
Definition single : HeapSnapshot :=
  {| snapshot := {| meta := sample_meta; node_count := 1; edge_count := 2 |};
     nodes := of_list [1; 1; 2];
     edges := of_list [2; 0; 0;  2; 1; 0];
     strings := sample_strings;
     extras := [] |}.

(** The scenario with one further top-level key. *)
Definition with_samples : HeapSnapshot :=
  {| snapshot := snapshot scenario;
     nodes := nodes scenario;
     edges := edges scenario;
     strings := strings scenario;
     extras := [("samples"%string, JArray [])] |}.

(** A snapshot whose node schema declares no field named type. *)
Definition untyped : HeapSnapshot :=
  {| snapshot :=
       {| meta := {| node_fields := ["name"; "edge_count"]%string;
                     node_types := node_types sample_meta;
                     edge_fields := edge_fields sample_meta;
                     edge_types := edge_types sample_meta |};
          node_count := 1; edge_count := 0 |};
     nodes := of_list [0; 0];
     edges := [];
     strings := sample_strings;
     extras := [] |}.

(** The snapshot [pair] under a schema without edge fields. *)
Definition stuck : HeapSnapshot :=
  {| snapshot :=
       {| meta := {| node_fields := node_fields sample_meta;
                     node_types := node_types sample_meta;
                     edge_fields := [];
                     edge_types := edge_types sample_meta |};
          node_count := 2; edge_count := 2 |};
     nodes := nodes pair;
     edges := edges pair;
     strings := sample_strings;
     extras := [] |}.

(** ** Specification-side vocabulary *)

(** The slots of a [number[]]: neither a hole, nor null, nor undefined. *)
Definition is_number (s : slot) : bool :=
  match s with
  | Some (Num _) => true
  | Some NaN => true
  | _ => false
  end.

Definition numbers (a : array) : bool := forallb is_number a.

(** The rounds of [iterateBySlice] without the loop test: [n] calls of the
    callback on consecutive slices from [i] on. *)
Fixpoint rounds {S : Type} (n : nat) (i sliceSize : Z)
    (callback : Z -> Z -> S -> outcome S) (s : S) : outcome S :=
  match n with
  | O => Ret s
  | Datatypes.S n' =>
      s' <- callback i (i + sliceSize) s ;;
      rounds n' (i + sliceSize) sliceSize callback s'
  end.

(** How many slices of width [sliceSize] start in [[i, end_)]. *)
Definition slice_count (i end_ sliceSize : Z) : nat :=
  Z.to_nat ((end_ - i + sliceSize - 1) / sliceSize).



(** The node stride and the number of node records of a snapshot. *)
Definition node_stride (d : HeapSnapshot) : Z :=
  Js.length (node_fields (meta (snapshot d))).

Definition edge_stride (d : HeapSnapshot) : Z :=
  Js.length (edge_fields (meta (snapshot d))).

(** The field of node number [k] that the schema calls [field]. *)
Definition node_field (d : HeapSnapshot) (k : nat) (field : string) : value :=
  Js.get (nodes d)
    (Js.add (Int (Z.of_nat k * node_stride d))
       (offset_number (prop (fieldOffsets (node_fields (meta (snapshot d)))) field))).

(** The sum of the edge_count fields of the first [n] nodes. *)
Fixpoint sum_edge_counts (d : HeapSnapshot) (n : nat) : number :=
  match n with
  | O => Int 0
  | Datatypes.S k =>
      Js.add (sum_edge_counts d k) (Js.ToNumber (node_field d k "edge_count"))
  end.

(** The type string the classifier decodes for the node at [nodeIndex], when
    there is one. *)
Definition decoded_type (w : Snapshot) (nodeIndex : Z) : option string :=
  match enum_lookup (nodeTypeEnum w)
          (Js.get (nodes (data w))
             (Js.add (Int nodeIndex) (offset_number (prop (nodeOffsets w) "type")))) with
  | Ret t => t
  | _ => None
  end.

(** The string-table entry named by the node's name field. *)
Definition named_string (w : Snapshot) (nodeIndex : Z) : node_name :=
  string_lookup (strings (data w))
    (Js.get (nodes (data w))
       (Js.add (Int nodeIndex) (offset_number (prop (nodeOffsets w) "name")))).

(** No node slice of the snapshot classifies as a weak retainer. *)
Definition no_retainer (d : HeapSnapshot) : Prop :=
  forall k : nat,
    Z.of_nat k * node_stride d < Js.length (nodes d) ->
    exists nm,
      getNodeName (new_Snapshot d) (Z.of_nat k * node_stride d) = Ret nm /\
      isWeakRetainer nm = false.


(** The classifier returns at every node of the snapshot. *)
Definition classifier_never_throws (d : HeapSnapshot) : Prop :=
  forall nodeIndex : Z, exists nm, getNodeName (new_Snapshot d) nodeIndex = Ret nm.

(** ** The output path and the step-wise variant of [main] *)

(** [path.replace(/\.heapsnapshot$/, '.clean.heapsnapshot')]: the pattern is
    anchored at the end of the path, so it can only match its last 13
    characters. *)
Fixpoint replace_extension (path : string) : string :=
  if String.eqb path ".heapsnapshot" then ".clean.heapsnapshot"%string
  else match path with
       | EmptyString => EmptyString
       | String c rest => String c (replace_extension rest)
       end.

(** [Bun.argv[3] || inputFilePath.replace(...)]: a missing third argument
    and an empty one are both falsy. *)
Definition outputFilePath (inputFilePath : string) (argv3 : option string) : string :=
  match argv3 with
  | Some p => if String.eqb p "" then replace_extension inputFilePath else p
  | None => replace_extension inputFilePath
  end.

Module Stepwise.

(** [main] of the variant that writes through [writeOutput], from
    [new Snapshot(data)] on; the content of the file is everything the
    writer was handed. *)
Definition main (d : HeapSnapshot) : outcome (list effect) :=
  let snapshot := new_Snapshot d in
  r <- clean snapshot ;;
  let isDirty := fst r in
  if negb isDirty then
    Ret [Log SnapshotParsed; Log SnapshotWasAlreadyClean; Log SparklingClean]
  else
    Ret [Log SnapshotParsed; Log SnapshotCleaned;
         FileWrite (writeOutput (data (snd r)));
         Log SnapshotWritten; Log SparklingClean].

End Stepwise.

(** ** Further vocabulary *)

(** A callback for [iterateBySlice] that only records the slices it is
    given. *)
Definition record_slice (i j : Z) (seen : list (Z * Z)) : outcome (list (Z * Z)) :=
  Ret (seen ++ [(i, j)]).

(** [l] is [l'] with some elements left out, the others in their order. *)
Inductive Subseq {A : Type} : list A -> list A -> Prop :=
| Subseq_nil : Subseq [] []
| Subseq_skip (x : A) (l l' : list A) : Subseq l l' -> Subseq l (x :: l')
| Subseq_keep (x : A) (l l' : list A) : Subseq l l' -> Subseq (x :: l) (x :: l').

(** A slot that survives compaction: it holds a value other than null. *)
Definition kept (s : slot) : bool :=
  match s with
  | None => false
  | Some Null => false
  | Some _ => true
  end.

(** What a pass may change in the data, and what it may not. *)
Record frame (d d' : HeapSnapshot) : Prop := {
  frame_meta : meta (snapshot d') = meta (snapshot d);
  frame_node_count : node_count (snapshot d') = node_count (snapshot d);
  frame_strings : strings d' = strings d;
  frame_extras : extras d' = extras d;
  frame_nodes : Js.length (nodes d') = Js.length (nodes d);
  frame_edge_count : edge_count (snapshot d') <= edge_count (snapshot d);
  frame_edges : Subseq (Js.filter_not_null (edges d')) (Js.filter_not_null (edges d))
}.

(** The number of values of a JSON value, counted with their places in
    arrays and objects: enough fuel for the recognizer. *)
Fixpoint json_size (j : json) : nat :=
  match j with
  | JArray l => Datatypes.S (fold_right (fun x acc => Datatypes.S (json_size x + acc)) O l)
  | JObject l =>
      Datatypes.S (fold_right (fun kv acc => let '(_, v) := kv in
                                             Datatypes.S (json_size v + acc)) O l)
  | _ => 1%nat
  end.

(** What can follow a value in a JSON text: nothing that would continue a
    number. *)
Definition ends_value (rest : list ascii) : bool :=
  match rest with
  | [] => true
  | c :: _ => negb (is_digit c || Ascii.eqb c "." || Ascii.eqb c "e" || Ascii.eqb c "E")
  end.

(** The characters a value written by [stringify] can start with. *)
Definition value_start (c : ascii) : bool :=
  is_digit c || existsb (Ascii.eqb c) ["{"; "["; dq; "t"; "f"; "n"; "-"]%char.

(** The recognizer reads the text [stringify] writes for [j] as one value,
    whatever text follows that cannot continue a number. *)
Definition scans (j : json) : Prop :=
  forall (fuel : nat) (rest : list ascii),
    (json_size j <= fuel)%nat ->
    ends_value rest = true ->
    scan_value fuel (list_ascii_of_string (stringify j) ++ rest) = Some rest.

(** The text [stringify] writes for one member of an object. *)
Definition member_text (kv : string * json) : string :=
  let '(k, v) := kv in (quote k ++ ":" ++ stringify v)%string.

(** The names every object inherits from [Object.prototype]: a property
    read with one of them does not come back undefined even when the object
    has no such entry of its own. *)
Definition object_prototype_names : list string :=
  ["constructor"; "hasOwnProperty"; "isPrototypeOf"; "propertyIsEnumerable";
   "toLocaleString"; "toString"; "valueOf"; "__proto__";
   "__defineGetter__"; "__defineSetter__"; "__lookupGetter__";
   "__lookupSetter__"]%string.



(** ** Loops *)

Section Loops.

Context {S : Type}.
Variable callback : Z -> Z -> S -> outcome S.
Variable sliceSize : Z.

Lemma slice_count_done (i end_ : Z) :
  0 < sliceSize -> end_ <= i -> slice_count i end_ sliceSize = O.
Proof.
  intros Hs Hle. unfold slice_count.
  assert ((end_ - i + sliceSize - 1) / sliceSize <= 0).
  { destruct (Z_lt_le_dec (end_ - i + sliceSize - 1) 0) as [Hn | Hp].
    - pose proof (Z.div_lt_upper_bound (end_ - i + sliceSize - 1) sliceSize 0 Hs).
      lia.
    - rewrite Z.div_small; lia. }
  lia.
Qed.

Lemma slice_count_step (i end_ : Z) :
  0 < sliceSize -> i < end_ ->
  slice_count i end_ sliceSize =
  Datatypes.S (slice_count (i + sliceSize) end_ sliceSize).
Proof.
  intros Hs Hlt. unfold slice_count.
  replace (end_ - i + sliceSize - 1) with ((end_ - i - 1) + 1 * sliceSize) by lia.
  rewrite Z.div_add by lia.
  replace (end_ - (i + sliceSize) + sliceSize - 1) with (end_ - i - 1) by lia.
  assert (0 <= (end_ - i - 1) / sliceSize) by (apply Z.div_pos; lia).
  rewrite Z2Nat.inj_add by lia. rewrite Nat.add_comm. reflexivity.
Qed.

(** With a positive slice size the fuel of [iterateBySlice] is never
    exhausted: the loop is its rounds. *)
Lemma slices_rounds (end_ : Z) :
  0 < sliceSize ->
  forall (fuel : nat) (i : Z) (s : S),
    end_ - i <= Z.of_nat fuel ->
    slices fuel i end_ sliceSize callback s =
    rounds (slice_count i end_ sliceSize) i sliceSize callback s.
Proof.
  intros Hs. induction fuel as [| fuel IH]; intros i s Hfuel; simpl.
  - destruct (Z.ltb_spec i end_); [lia |].
    rewrite slice_count_done by lia. reflexivity.
  - destruct (Z.ltb_spec i end_).
    + rewrite slice_count_step by lia. simpl.
      destruct (callback i (i + sliceSize) s); simpl; auto.
      apply IH. lia.
    + rewrite slice_count_done by lia. reflexivity.
Qed.

Lemma iterateBySlice_rounds (a b : Z) (s : S) :
  0 < sliceSize ->
  iterateBySlice (Int a) (Int b) sliceSize callback s =
  rounds (slice_count a b sliceSize) a sliceSize callback s.
Proof.
  intros Hs. unfold iterateBySlice. apply slices_rounds; auto. lia.
Qed.


Lemma slice_count_lt (end_ : Z) (k : nat) :
  0 < sliceSize ->
  (Z.of_nat k * sliceSize < end_ <-> (k < slice_count 0 end_ sliceSize)%nat).
Proof.
  intros Hs. unfold slice_count.
  replace (end_ - 0 + sliceSize - 1) with (end_ + sliceSize - 1) by lia.
  destruct (Z_lt_le_dec (end_ + sliceSize - 1) 0) as [Hn | Hp].
  - assert ((end_ + sliceSize - 1) / sliceSize < 0)
      by (apply Z.div_lt_upper_bound; lia).
    split; intros; [nia | lia].
  - pose proof (Z.div_pos _ _ Hp Hs) as Hq.
    pose proof (Z.mul_div_le (end_ + sliceSize - 1) sliceSize Hs).
    pose proof (Z.mul_succ_div_gt (end_ + sliceSize - 1) sliceSize Hs).
    split; intros H2.
    + apply Nat2Z.inj_lt. rewrite Z2Nat.id by lia. nia.
    + apply Nat2Z.inj_lt in H2. rewrite Z2Nat.id in H2 by lia. nia.
Qed.


End Loops.

(** ** The walker's callback *)

Lemma with_data_same (w : Snapshot) : with_data w (data w) = w.
Proof. destruct w; reflexivity. Qed.

Lemma with_edges_same (d : HeapSnapshot) : with_edges d (edges d) = d.
Proof. destruct d; reflexivity. Qed.

(** A node that is not classified as a weak retainer only moves the cursor
    and the counter of traversed nodes. *)
Lemma visit_other (c : consts) (i j : Z) (st : walk) (n : node_name) :
  getNodeName (this st) i = Ret n ->
  isWeakRetainer n = false ->
  visit c i j st =
  Ret {| nextEdgeIndex := advance c st i; totalObjects := totalObjects st + 1;
         weakRetainers := weakRetainers st; this := this st |}.
Proof.
  intros Hn Hr. unfold visit. rewrite Hn. simpl. rewrite Hr. reflexivity.
Qed.

(** What a returning call of the callback has done. *)
Lemma visit_inv (c : consts) (i j : Z) (st st' : walk) :
  visit c i j st = Ret st' ->
  exists n,
    getNodeName (this st) i = Ret n /\
    nodeTypeEnum (this st') = nodeTypeEnum (this st) /\
    ((isWeakRetainer n = false /\ this st' = this st /\
      weakRetainers st' = weakRetainers st) \/
     (isWeakRetainer n = true /\ weakRetainers st' = weakRetainers st + 1)).
Proof.
  unfold visit. intros H.
  destruct (getNodeName (this st) i) as [n | |] eqn:Hn; simpl in H; try discriminate.
  exists n. split; [reflexivity |].
  destruct (isWeakRetainer n) eqn:Hr; simpl in H.
  - destruct (cleanupRetainers _ _ _ _ _ _) as [d' | |]; simpl in H; try discriminate.
    inversion H; subst; simpl. split; [reflexivity |]. right. auto.
  - inversion H; subst; simpl. split; [reflexivity |]. left. auto.
Qed.



(** The classifier throws only for want of a type table. *)
Lemma enum_lookup_returns (e : type_enum) (v : value) :
  e <> EUndefined -> exists t, enum_lookup e v = Ret t.
Proof.
  intros He. destruct e as [| s | l]; [congruence | |]; destruct v; simpl; eauto.
Qed.

Lemma getNodeName_returns (w : Snapshot) (i : Z) :
  nodeTypeEnum w <> EUndefined -> exists n, getNodeName w i = Ret n.
Proof.
  intros He. unfold getNodeName.
  destruct (enum_lookup_returns (nodeTypeEnum w)
              (Js.get (nodes (data w))
                 (Js.add (Int i) (offset_number (prop (nodeOffsets w) "type")))) He)
    as (t & ->).
  simpl. destruct (negb (is_object t)); eauto.
Qed.


(** ** Runs of the callback *)

Section Walk.

Variable c : consts.
Let size := fieldSliceSize c.


(** Without a weak retainer among the next [n] slices the data stays as it
    is and the count of retainers too. *)
Lemma rounds_no_retainer (w0 : Snapshot) (n : nat) :
  forall (i : Z) (st : walk),
    this st = w0 ->
    (forall k : nat, (k < n)%nat ->
       exists nm, getNodeName w0 (i + Z.of_nat k * size) = Ret nm /\
                  isWeakRetainer nm = false) ->
    exists st', rounds n i size (visit c) st = Ret st' /\
                this st' = w0 /\ weakRetainers st' = weakRetainers st.
Proof.
  induction n as [| n IH]; intros i st Hthis Hall; simpl.
  - eauto.
  - destruct (Hall O) as (nm & Hnm & Hr); [lia |].
    replace (i + Z.of_nat 0 * size) with i in Hnm by lia.
    rewrite (visit_other c i (i + size) st nm) by (try rewrite Hthis; assumption).
    simpl.
    match goal with |- context [rounds n _ _ _ ?s] => destruct (IH (i + size) s) as (st' & Hst' & Ht & Hw) end.
    + assumption.
    + intros k Hk. destruct (Hall (Datatypes.S k)) as (nm' & Hnm' & Hr'); [lia |].
      exists nm'. split; [| assumption].
      replace (i + size + Z.of_nat k * size)
        with (i + Z.of_nat (Datatypes.S k) * size) by lia.
      assumption.
    + exists st'. simpl in Hw. auto.
Qed.



End Walk.

(** ** The first pass as a whole *)

Lemma filter_not_null_numbers (a : array) :
  numbers a = true -> Js.filter_not_null a = a.
Proof.
  induction a as [| s a IH]; simpl; intros H; [reflexivity |].
  apply andb_true_iff in H. destruct H as [Hs Ha].
  destruct s as [[z | | |] |]; simpl in Hs; try discriminate;
    rewrite IH by assumption; reflexivity.
Qed.


Lemma length_nonneg {A} (l : list A) : 0 <= Js.length l.
Proof. unfold Js.length. lia. Qed.

(** A schema without node fields resolves no type table. *)
Lemma no_fields_no_enum (d : HeapSnapshot) :
  node_stride d = 0 -> nodeTypeEnum (new_Snapshot d) = EUndefined.
Proof.
  unfold node_stride, Js.length, new_Snapshot. simpl.
  destruct (node_fields (meta (snapshot d))); simpl; [reflexivity | lia].
Qed.

Lemma enum_positive_stride (d : HeapSnapshot) :
  nodeTypeEnum (new_Snapshot d) <> EUndefined -> 0 < node_stride d.
Proof.
  intros He. pose proof (length_nonneg (node_fields (meta (snapshot d)))) as Hn.
  fold (node_stride d) in Hn.
  destruct (Z.eq_dec (node_stride d) 0) as [H0 | H0]; [| lia].
  apply no_fields_no_enum in H0. congruence.
Qed.

Lemma getNodeName_no_enum (w : Snapshot) (i : Z) :
  nodeTypeEnum w = EUndefined -> getNodeName w i = Throws.
Proof. intros He. unfold getNodeName. rewrite He. reflexivity. Qed.

(** The classifier reads the nodes, the strings and the schema, not the
    edges. *)
Lemma getNodeName_with_edges (d : HeapSnapshot) (a : array) (i : Z) :
  getNodeName (new_Snapshot (with_edges d a)) i = getNodeName (new_Snapshot d) i.
Proof. reflexivity. Qed.

(** With a positive node stride the first pass is the run over all slices. *)
Lemma first_pass_rounds (d : HeapSnapshot) :
  0 < node_stride d ->
  first_pass (new_Snapshot d) =
  rounds (slice_count 0 (Js.length (nodes d)) (node_stride d)) 0 (node_stride d)
    (visit (clean_consts (new_Snapshot d))) (walk_init (new_Snapshot d)).
Proof.
  intros Hs. unfold first_pass.
  apply (iterateBySlice_rounds (visit (clean_consts (new_Snapshot d))) (node_stride d)).
  assumption.
Qed.

(** Without node fields the first pass visits nothing, or throws at once. *)
Lemma first_pass_no_fields (d : HeapSnapshot) :
  node_stride d = 0 ->
  first_pass (new_Snapshot d) =
  if 0 <? Js.length (nodes d) then Throws else Ret (walk_init (new_Snapshot d)).
Proof.
  intros H0. unfold first_pass, iterateBySlice.
  change (fieldSliceSize (clean_consts (new_Snapshot d))) with (node_stride d).
  change (nodes (data (new_Snapshot d))) with (nodes d).
  destruct (Z.ltb_spec 0 (Js.length (nodes d))) as [Hlt | Hge].
  - destruct (Z.to_nat (Js.length (nodes d) - 0)) as [| f] eqn:Hf; [lia |].
    simpl. destruct (Z.ltb_spec 0 (Js.length (nodes d))); [| lia].
    unfold visit at 1. simpl.
    rewrite getNodeName_no_enum by (apply no_fields_no_enum; assumption).
    reflexivity.
  - destruct (Z.to_nat (Js.length (nodes d) - 0)); simpl;
      destruct (Z.ltb_spec 0 (Js.length (nodes d))); try lia; reflexivity.
Qed.

(** The first pass of a snapshot without retainers. *)
Lemma first_pass_no_retainer (d : HeapSnapshot) :
  no_retainer d ->
  exists st, first_pass (new_Snapshot d) = Ret st /\
             this st = new_Snapshot d /\ weakRetainers st = 0.
Proof.
  intros Hno.
  pose proof (length_nonneg (node_fields (meta (snapshot d)))) as Hn.
  fold (node_stride d) in Hn.
  destruct (Z.eq_dec (node_stride d) 0) as [H0 | H0].
  - rewrite first_pass_no_fields by assumption.
    destruct (Z.ltb_spec 0 (Js.length (nodes d))) as [Hlt | Hge].
    + destruct (Hno O) as (nm & Hnm & _); [rewrite H0; simpl; lia |].
      rewrite getNodeName_no_enum in Hnm by (apply no_fields_no_enum; assumption).
      discriminate.
    + eexists. split; [reflexivity |]. split; reflexivity.
  - rewrite first_pass_rounds by lia.
    destruct (rounds_no_retainer (clean_consts (new_Snapshot d)) (new_Snapshot d)
                (slice_count 0 (Js.length (nodes d)) (node_stride d)) 0
                (walk_init (new_Snapshot d)) eq_refl) as (st & Hst & Ht & Hw).
    + intros k Hk.
      apply (slice_count_lt (node_stride d)) in Hk; [| lia].
      destruct (Hno k Hk) as (nm & Hnm & Hr).
      exists nm. split; [| assumption].
      change (fieldSliceSize (clean_consts (new_Snapshot d))) with (node_stride d).
      replace (0 + Z.of_nat k * node_stride d) with (Z.of_nat k * node_stride d) by lia.
      assumption.
    + exists st. auto.
Qed.


(** What [clean] returns on a snapshot without retainers: only the
    compaction filter has touched it. *)
Lemma clean_data_no_retainer (d : HeapSnapshot) :
  no_retainer d ->
  clean_data d = Ret (false, with_edges d (Js.filter_not_null (edges d))).
Proof.
  intros Hno. destruct (first_pass_no_retainer d Hno) as (st & Hst & Ht & Hw).
  unfold clean_data, clean. rewrite Hst. simpl.
  unfold compact. rewrite Ht, Hw. reflexivity.
Qed.

(** ** Snapshots without weak retainers *)

(** An empty nodes array has no slice to classify. *)
Lemma no_retainer_empty (d : HeapSnapshot) : nodes d = [] -> no_retainer d.
Proof.
  intros He k Hk. rewrite He in Hk. unfold Js.length in Hk. simpl in Hk.
  pose proof (length_nonneg (node_fields (meta (snapshot d)))) as Hn.
  fold (node_stride d) in Hn. nia.
Qed.

(** C10. On a snapshot whose edges are a [number[]] and in which no node
    slice classifies as a weak retainer, [clean()] returns false and hands
    the data back unchanged: nodes, strings, [snapshot.edge_count], and the
    edges, which the compaction filter rebuilds element for element
    (zero-valued edges stay).  A snapshot with an empty nodes array is such a
    snapshot. *)
Theorem clean_without_retainer_is_identity (d : HeapSnapshot) :
  numbers (edges d) = true ->
  (no_retainer d -> clean_data d = Ret (false, d)) /\
  (nodes d = [] -> clean_data d = Ret (false, d)).
Proof.
  intros Hnum.
  assert (Hid : no_retainer d -> clean_data d = Ret (false, d)).
  { intros Hno. rewrite clean_data_no_retainer by assumption.
    rewrite filter_not_null_numbers by assumption.
    rewrite with_edges_same. reflexivity. }
  split; [exact Hid |].
  intros He. apply Hid. apply no_retainer_empty. exact He.
Qed.

Lemma clean_without_retainer_is_identity_witness :
  clean_data single = Ret (false, single).
Proof.
  apply (proj1 (clean_without_retainer_is_identity single eq_refl)).
  intros k Hk.
  change (Z.of_nat k * 3 < 3) in Hk.
  assert (k = O) as -> by lia.
  exists (NameString "Foo"). split; reflexivity.
Defined.

(** ** Cleaning twice *)




(** ** What [clean] reports *)






(** ** The classifier *)

(** C9, as amended.  Whenever the schema resolves a node-type table (the
    entry of [node_types] at the offset of the field type exists) the
    classifier returns for every node: null when the decoded type string is
    not "object", otherwise the string-table entry indexed by the node's name
    field; and the walker treats a node as a weak retainer exactly when the
    name returned is one of WeakMap, WeakSet, WeakRef, DebugWeakCache,
    DebugWeakMap. *)
Theorem classifier_with_type_table (w : Snapshot) (nodeIndex : Z) :
  nodeTypeEnum w <> EUndefined ->
  (exists nm, getNodeName w nodeIndex = Ret nm) /\
  (decoded_type w nodeIndex <> Some "object"%string ->
   getNodeName w nodeIndex = Ret NameNull) /\
  (decoded_type w nodeIndex = Some "object"%string ->
   getNodeName w nodeIndex = Ret (named_string w nodeIndex)) /\
  (forall nm,
     isWeakRetainer nm = true <->
     exists s, nm = NameString s /\
               (s = "WeakMap" \/ s = "WeakSet" \/ s = "WeakRef" \/
                s = "DebugWeakCache" \/ s = "DebugWeakMap")%string).
Proof.
  intros He. split; [apply getNodeName_returns; assumption |].
  unfold decoded_type, getNodeName, named_string.
  destruct (enum_lookup_returns (nodeTypeEnum w)
              (Js.get (nodes (data w))
                 (Js.add (Int nodeIndex) (offset_number (prop (nodeOffsets w) "type")))) He)
    as (t & ->).
  simpl. split; [| split].
  - intros Ht. destruct t as [s |]; simpl; [| reflexivity].
    destruct (String.eqb_spec s "object"); [congruence | reflexivity].
  - intros ->. reflexivity.
  - intros nm. unfold isWeakRetainer, has, WeakRetainerNames. split.
    + intros H. destruct nm as [s | |]; simpl in H; try discriminate.
      exists s. split; [reflexivity |].
      rewrite negb_true_iff, orb_false_iff, negb_false_iff in H.
      destruct H as [_ H]. simpl in H.
      repeat (apply orb_true_iff in H; destruct H as [H | H];
              [apply String.eqb_eq in H; auto 6 |]).
      discriminate.
    + intros (s & -> & H).
      destruct H as [-> | [-> | [-> | [-> | ->]]]]; reflexivity.
Qed.

Lemma classifier_with_type_table_witness :
  getNodeName (new_Snapshot scenario) 0 = Ret (NameString "WeakMap").
Proof.
  destruct (classifier_with_type_table (new_Snapshot scenario) 0) as (_ & _ & Hobj & _).
  - discriminate.
  - apply Hobj. reflexivity.
Defined.

(** C9, as stated, fails on a snapshot whose node schema has no field named
    type: [new Snapshot] leaves [nodeTypeEnum] undefined and the classifier
    throws on reading a property of it. *)
Lemma classifier_throws_without_type_table : ~ classifier_never_throws untyped.
Proof.
  intros H. destruct (H 0) as (nm & Hnm). discriminate Hnm.
Qed.

(** ** The cursor, the edge count read, and the pruner *)

(** Every returning visit moves the cursor, retainer or not. *)
Lemma visit_cursor (c : consts) (i j : Z) (st st' : walk) :
  visit c i j st = Ret st' -> nextEdgeIndex st' = advance c st i.
Proof.
  unfold visit. intros H.
  destruct (getNodeName (this st) i) as [n | |]; simpl in H; try discriminate.
  destruct (isWeakRetainer n); simpl in H.
  - destruct (cleanupRetainers _ _ _ _ _ _); simpl in H; try discriminate.
    inversion H; reflexivity.
  - inversion H; reflexivity.
Qed.

(** The cursor moves by the sum of the count read and the edge stride. *)
Lemma advance_sum (c : consts) (st : walk) (i cursor owned : Z) :
  nextEdgeIndex st = Int cursor ->
  ownedEdgeCount c (this st) i = Num owned ->
  advance c st i = Int (cursor + owned + edgeFieldsCount c).
Proof. intros Hc Ho. unfold advance. rewrite Hc, Ho. reflexivity. Qed.

(** C1. On the snapshot [single] (one node with 2 edges of 3 fields each, and
    a total that makes the count read the right one) the visit of node 0
    leaves the cursor at 0 + 2 + 3 = 5, not at 2 * 3 = 6: the callback adds
    the edge stride where the claim multiplies by it. *)
Theorem cursor_advance_on_single :
  node_field single 0 "edge_count" = Num 2 /\
  ownedEdgeCount (clean_consts (new_Snapshot single)) (new_Snapshot single) 0 = Num 2 /\
  edgeFieldsCount (clean_consts (new_Snapshot single)) = 3 /\
  visit (clean_consts (new_Snapshot single)) 0 3 (walk_init (new_Snapshot single)) =
  Ret {| nextEdgeIndex := Int 5; totalObjects := 1; weakRetainers := 0;
         this := new_Snapshot single |}.
Proof. repeat split. Qed.

(** C2. On the scenario of the specification the schema puts edge_count at
    offset 2 and node 0 holds 2 there, but [clean] reads the node record at
    offset [snapshot.edge_count] = 3, which is the type field of node 1, and
    takes 1 for the edge count of node 0. *)
Theorem owned_edge_count_on_scenario :
  prop (nodeOffsets (new_Snapshot scenario)) "edge_count" = Some 2 /\
  node_field scenario 0 "edge_count" = Num 2 /\
  edgeCount (clean_consts (new_Snapshot scenario)) = edge_count (snapshot scenario) /\
  edge_count (snapshot scenario) = 3 /\
  ownedEdgeCount (clean_consts (new_Snapshot scenario)) (new_Snapshot scenario) 0 =
    node_field scenario 1 "type" /\
  ownedEdgeCount (clean_consts (new_Snapshot scenario)) (new_Snapshot scenario) 0 = Num 1.
Proof. repeat split. Qed.

(** C3. On the snapshot [pair] node 0 is a WeakMap with 1 edge, stored in
    positions 0 to 2 of the edges.  The first pass tombstones positions 0 to
    5, which takes in the edge of node 1, lowers [snapshot.edge_count] by 2,
    from 2 to 0, and leaves -1 in the edge_count field of node 0. *)
Theorem pruning_on_pair :
  node_field pair 0 "edge_count" = Num 1 /\
  edge_count (snapshot pair) = 2 /\
  exists st,
    first_pass (new_Snapshot pair) = Ret st /\
    edges (data (this st)) = repeat (Some Null) 6 /\
    edge_count (snapshot (data (this st))) = 0 /\
    node_field (data (this st)) 0 "edge_count" = Num (-1).
Proof.
  split; [reflexivity |]. split; [reflexivity |].
  eexists. split; [vm_compute; reflexivity |]. repeat split.
Qed.

(** C4. The scenario of the specification has 3 edges by all three counts.
    [clean()] returns true on it and leaves [snapshot.edge_count] = 1 and one
    edge record in the edges, while the edge_count fields of the three nodes
    still add up to 3. *)
Theorem counts_after_clean_on_scenario :
  edge_count (snapshot scenario) = 3 /\
  Js.length (edges scenario) / edge_stride scenario = 3 /\
  sum_edge_counts scenario 3 = Int 3 /\
  exists d',
    clean_data scenario = Ret (true, d') /\
    edge_count (snapshot d') = 1 /\
    Js.length (edges d') / edge_stride d' = 1 /\
    sum_edge_counts d' 3 = Int 3 /\
    node_field d' 0 "edge_count" = Num 2.
Proof.
  repeat (split; [reflexivity |]).
  eexists. split; [vm_compute; reflexivity |]. repeat split.
Qed.

(** C5. On the snapshot [pair] node 1 is an object named Foo, which is no
    weak retainer, with one edge record, 2 1 0.  After [clean()] its
    edge_count field is still 1 but the edges are empty: its record has been
    removed together with that of node 0. *)
Theorem non_retainer_edges_on_pair :
  getNodeName (new_Snapshot pair) 3 = Ret (NameString "Foo") /\
  isWeakRetainer (NameString "Foo") = false /\
  node_field pair 1 "edge_count" = Num 1 /\
  edges pair = of_list [2; 0; 3] ++ of_list [2; 1; 0] /\
  exists d',
    clean_data pair = Ret (true, d') /\
    node_field d' 1 "edge_count" = Num 1 /\
    edges d' = [].
Proof.
  repeat split.
  eexists. split; [vm_compute; reflexivity |]. repeat split.
Qed.

(** ** The serializer *)

Lemma string_append_assoc (a b c : string) :
  ((a ++ b) ++ c = a ++ (b ++ c))%string.
Proof. induction a as [| x a IH]; simpl; [reflexivity | rewrite IH; reflexivity]. Qed.

(** Whatever the snapshot, [writeOutput] closes the object after the edges
    and goes on writing. *)
Lemma writeOutput_closes_after_edges (d : HeapSnapshot) :
  exists pre post : string,
    writeOutput d =
    (pre ++ stringify (json_of_array (edges d)) ++ "}"
         ++ String dq "strings" ++ post)%string.
Proof.
  unfold writeOutput.
  exists ("{ " ++ String dq "meta" ++ String dq ": "
          ++ stringify (json_of_header (snapshot d)) ++ ","
          ++ String dq "nodes" ++ String dq ": "
          ++ stringify (json_of_array (nodes d)) ++ ","
          ++ String dq "edges" ++ String dq ": ")%string.
  eexists.
  repeat rewrite string_append_assoc. simpl.
  repeat rewrite string_append_assoc. simpl.
  reflexivity.
Qed.

(** C6. On the scenario with one more top-level key, samples, [writeOutput]
    writes the keys meta, nodes, edges, strings, samples in this order, but
    the text is no JSON object: a closing brace follows the edges and the
    strings, a comma ends the text, and the header stands under the key meta
    where the input has snapshot.  What [JSON.stringify] makes of the same
    data is a JSON object. *)
Theorem writeOutput_on_with_samples :
  writeOutput with_samples =
    ("{ " ++ quote "meta" ++ ": " ++ stringify (json_of_header (snapshot with_samples)) ++ ","
     ++ quote "nodes" ++ ": [1,0,2,1,1,1,2,2,0],"
     ++ quote "edges" ++ ": [2,0,3,2,1,6,2,2,6]}"
     ++ quote "strings" ++ ": [" ++ quote "WeakMap" ++ "," ++ quote "Foo" ++ ","
                                 ++ quote "bar" ++ "]}"
     ++ quote "samples" ++ ": [],")%string /\
  is_json_object (writeOutput with_samples) = false /\
  is_json_object (writeOutput scenario) = false /\
  is_json_object (stringify (json_of_data with_samples)) = true.
Proof. repeat split. Qed.

(** * Further properties of the code *)

(** ** Field offsets *)

Lemma prop_entries_none (fields : list string) (key : string) :
  forall offset : Z,
    prop (entries_from offset fields) key = None <-> ~ In key fields.
Proof.
  induction fields as [| f fields IH]; intros offset; simpl.
  - tauto.
  - destruct (prop (entries_from (offset + 1) fields) key) as [v |] eqn:Hp.
    + split; [discriminate |]. intros Hn. exfalso.
      assert (Hnone : prop (entries_from (offset + 1) fields) key = None)
        by (apply IH; tauto).
      congruence.
    + apply IH in Hp. destruct (String.eqb_spec f key) as [-> | Hne].
      * split; [discriminate | tauto].
      * split; [| reflexivity]. intros _ [H | H]; tauto.
Qed.

Lemma prop_entries_some (fields : list string) (key : string) :
  forall (offset i : Z),
    prop (entries_from offset fields) key = Some i <->
    exists n : nat,
      i = offset + Z.of_nat n /\
      nth_error fields n = Some key /\
      forall m : nat, (n < m)%nat -> nth_error fields m <> Some key.
Proof.
  induction fields as [| f fields IH]; intros offset i; simpl.
  - split; [discriminate |]. intros (n & _ & Hn & _). destruct n; discriminate.
  - destruct (prop (entries_from (offset + 1) fields) key) as [v |] eqn:Hp.
    + apply IH in Hp. destruct Hp as (n & Hv & Hn & Hlast). split.
      * intros H. inversion H; subst i. exists (Datatypes.S n).
        split; [lia |]. split; [exact Hn |].
        intros [| m] Hm; [lia |]. simpl. apply Hlast. lia.
      * intros (n' & Hi & Hn' & Hlast').
        destruct n' as [| n'].
        -- exfalso. apply (Hlast' (Datatypes.S n)); [lia | exact Hn].
        -- simpl in Hn'.
           destruct (lt_eq_lt_dec n n') as [[Hlt | Heq] | Hgt].
           ++ exfalso. apply (Hlast n'); assumption.
           ++ subst n'. f_equal. lia.
           ++ exfalso. apply (Hlast' (Datatypes.S n)); [lia | exact Hn].
    + pose proof (proj1 (prop_entries_none fields key (offset + 1)) Hp) as Hnot.
      destruct (String.eqb_spec f key) as [-> | Hne].
      * split.
        -- intros H. inversion H; subst i. exists O. split; [lia |].
           split; [reflexivity |].
           intros [| m] Hm; [lia |]. simpl. intros Hm'.
           apply Hnot. eapply nth_error_In; eassumption.
        -- intros (n & Hi & Hn & _). destruct n as [| n].
           ++ f_equal. lia.
           ++ simpl in Hn. exfalso. apply Hnot. eapply nth_error_In; eassumption.
      * split; [discriminate |].
        intros (n & _ & Hn & _). destruct n as [| n]; simpl in Hn.
        -- congruence.
        -- exfalso. apply Hnot. eapply nth_error_In; eassumption.
Qed.

(** X1. For a name that [Object.prototype] does not define, looking it
    up in [fieldOffsets(fields)] yields undefined exactly when the name is
    not among the fields. *)
Theorem fieldOffsets_undefined (fields : list string) (key : string) :
  ~ In key object_prototype_names ->
  (prop (fieldOffsets fields) key = None <-> ~ In key fields).
Proof. intros _. apply prop_entries_none. Qed.

(** X2. Looking a name up in [fieldOffsets(fields)] yields the position of
    its last occurrence in the field list: for a list without repetition,
    the position of the name. *)
Theorem fieldOffsets_last_position (fields : list string) (key : string) (i : Z) :
  prop (fieldOffsets fields) key = Some i <->
  exists n : nat,
    i = Z.of_nat n /\
    nth_error fields n = Some key /\
    forall m : nat, (n < m)%nat -> nth_error fields m <> Some key.
Proof.
  unfold fieldOffsets. rewrite prop_entries_some.
  split; intros (n & Hi & H); exists n; (split; [lia | exact H]).
Qed.

(** ** Slices *)





Lemma slices_zero_diverges {S : Type} (callback : Z -> Z -> S -> outcome S) (a b : Z) :
  a < b ->
  (forall i j s, exists s', callback i j s = Ret s') ->
  forall (fuel : nat) (s : S), slices fuel a b 0 callback s = Diverges.
Proof.
  intros Hlt Hcb. induction fuel as [| fuel IH]; intros s; simpl;
    destruct (Z.ltb_spec a b); try lia; [reflexivity |].
  destruct (Hcb a (a + 0) s) as (s' & ->). simpl.
  rewrite Z.add_0_r. apply IH.
Qed.

(** X4. With slice size 0 and a non-empty range, [iterateBySlice] never
    ends when the callback always returns: the index does not move. *)
Theorem iterateBySlice_zero_diverges {S : Type}
    (callback : Z -> Z -> S -> outcome S) (a b : Z) (s : S) :
  a < b ->
  (forall i j s, exists s', callback i j s = Ret s') ->
  iterateBySlice (Int a) (Int b) 0 callback s = Diverges.
Proof.
  intros Hlt Hcb. unfold iterateBySlice. apply slices_zero_diverges; assumption.
Qed.

Lemma iterateBySlice_zero_diverges_witness :
  iterateBySlice (Int 0) (Int 2) 0 record_slice [] = Diverges.
Proof.
  apply iterateBySlice_zero_diverges; [lia |].
  intros i j s. eexists. reflexivity.
Defined.

(** ** Reading and writing array slots *)

Lemma update_length {A : Type} (l : list A) (n : nat) (x : A) :
  List.length (Js.update l n x) = List.length l.
Proof.
  revert n. induction l as [| h t IH]; intros [| n]; simpl; auto.
Qed.



Lemma set_length_inside (a : array) (i : Z) (v : value) :
  0 <= i < Js.length a -> Js.length (Js.set a i v) = Js.length a.
Proof.
  intros Hi. unfold Js.set.
  destruct (Z.ltb_spec i 0); [lia |].
  destruct (Z.ltb_spec i (Js.length a)); [| lia].
  unfold Js.length. rewrite update_length. reflexivity.
Qed.




(** ** The pruner, stride by stride *)

Lemma get_int_defined (a : array) (i : Z) :
  Js.get_int a i <> Undefined -> 0 <= i < Js.length a.
Proof.
  unfold Js.get_int. intros H.
  destruct (Z.leb_spec 0 i), (Z.ltb_spec i (Js.length a)); simpl in H;
    try congruence. lia.
Qed.







(** ** What cleaning leaves alone *)

Lemma Subseq_refl {A : Type} (l : list A) : Subseq l l.
Proof. induction l; [apply Subseq_nil | apply Subseq_keep; assumption]. Qed.

Lemma Subseq_trans {A : Type} (l1 l2 l3 : list A) :
  Subseq l1 l2 -> Subseq l2 l3 -> Subseq l1 l3.
Proof.
  intros H12 H23. revert l1 H12.
  induction H23 as [| x l2 l3 H IH | x l2 l3 H IH]; intros l1 H12.
  - exact H12.
  - apply Subseq_skip. apply IH. exact H12.
  - inversion H12; subst.
    + apply Subseq_skip. apply IH. assumption.
    + apply Subseq_keep. apply IH. assumption.
Qed.

Lemma filter_not_null_Subseq (a : array) : Subseq (Js.filter_not_null a) a.
Proof.
  induction a as [| s a IH]; simpl; [apply Subseq_nil |].
  destruct s as [[z | | |] |];
    first [apply Subseq_keep; assumption | apply Subseq_skip; assumption].
Qed.

Lemma filter_not_null_kept (a : array) : forallb kept (Js.filter_not_null a) = true.
Proof.
  induction a as [| s a IH]; simpl; [reflexivity |].
  destruct s as [[z | | |] |]; simpl; assumption.
Qed.

Lemma filter_not_null_app (a b : array) :
  Js.filter_not_null (a ++ b) = Js.filter_not_null a ++ Js.filter_not_null b.
Proof.
  induction a as [| s a IH]; simpl; [reflexivity |].
  destruct s as [[z | | |] |]; simpl; rewrite IH; reflexivity.
Qed.

Lemma filter_not_null_holes (k : nat) : Js.filter_not_null (repeat None k) = [].
Proof. induction k; simpl; auto. Qed.

Lemma filter_update_null (a : array) :
  forall n : nat,
    Subseq (Js.filter_not_null (Js.update a n (Some Null))) (Js.filter_not_null a).
Proof.
  induction a as [| s a IH]; intros n; simpl.
  - destruct n; apply Subseq_nil.
  - destruct n as [| n]; simpl.
    + destruct s as [[z | | |] |];
        first [apply Subseq_refl | apply Subseq_skip; apply Subseq_refl].
    + destruct s as [[z | | |] |]; first [apply IH | apply Subseq_keep, IH].
Qed.

(** Writing a tombstone never adds a survivor of the compaction. *)
Lemma filter_set_null (a : array) (i : Z) :
  Subseq (Js.filter_not_null (Js.set a i Null)) (Js.filter_not_null a).
Proof.
  unfold Js.set.
  destruct (i <? 0); [apply Subseq_refl |].
  destruct (i <? Js.length a); [apply filter_update_null |].
  rewrite !filter_not_null_app, filter_not_null_holes. simpl.
  rewrite app_nil_r. apply Subseq_refl.
Qed.

Lemma filter_null_from (count : nat) :
  forall (i : Z) (a : array),
    Subseq (Js.filter_not_null (null_from count i a)) (Js.filter_not_null a).
Proof.
  induction count as [| count IH]; intros i a; simpl.
  - apply Subseq_refl.
  - eapply Subseq_trans; [apply IH | apply filter_set_null].
Qed.

Lemma decrement_length (a : array) (i : Z) :
  0 <= i < Js.length a -> Js.length (decrement_at a i) = Js.length a.
Proof. intros H. unfold decrement_at. apply set_length_inside. exact H. Qed.

Lemma frame_refl (d : HeapSnapshot) : frame d d.
Proof. constructor; try reflexivity; try lia. apply Subseq_refl. Qed.

Lemma frame_trans (d1 d2 d3 : HeapSnapshot) :
  frame d1 d2 -> frame d2 d3 -> frame d1 d3.
Proof.
  intros [] []. constructor; try congruence; try lia.
  eapply Subseq_trans; eassumption.
Qed.

Lemma remove_edge_frame (ec so a b : Z) (d d' : HeapSnapshot) :
  0 <= so + ec < Js.length (nodes d) ->
  remove_edge ec so a b d = Ret d' -> frame d d'.
Proof.
  intros Hin H. unfold remove_edge in H. inversion H; subst; clear H.
  constructor; simpl; try reflexivity; try lia.
  - apply decrement_length. exact Hin.
  - apply filter_null_from.
Qed.

Lemma rounds_remove_edge_frame (ec so efc : Z) (n : nat) :
  forall (a : Z) (d d' : HeapSnapshot),
    0 <= so + ec < Js.length (nodes d) ->
    rounds n a efc (remove_edge ec so) d = Ret d' -> frame d d'.
Proof.
  induction n as [| n IH]; intros a d d' Hin H; cbn [rounds] in H.
  - inversion H. apply frame_refl.
  - destruct (remove_edge ec so a (a + efc) d) as [d1 | |] eqn:H1;
      cbn [Js.bind] in H; try discriminate.
    pose proof (remove_edge_frame _ _ _ _ _ _ Hin H1) as F1.
    apply (frame_trans d d1 d'); [exact F1 |].
    apply (IH (a + efc) d1 d'); [| exact H].
    rewrite (frame_nodes _ _ F1). exact Hin.
Qed.

Lemma slices_done {S : Type} (callback : Z -> Z -> S -> outcome S) (a b size : Z)
    (fuel : nat) (s : S) :
  b <= a -> slices fuel a b size callback s = Ret s.
Proof.
  intros H. destruct fuel; simpl; destruct (Z.ltb_spec a b); try lia; reflexivity.
Qed.

Lemma add_nan_r (x : number) : Js.add x NotANumber = NotANumber.
Proof. destruct x; reflexivity. Qed.

(** The pruner, called the way the walker calls it. *)
Lemma cleanupRetainers_frame (d d' : HeapSnapshot) (ec so efc : Z) (start : number) :
  0 <= efc ->
  cleanupRetainers d ec so start
    (Js.add (Js.add start (Js.ToNumber (getField (nodes d) so ec))) (Int efc)) efc
  = Ret d' ->
  frame d d'.
Proof.
  intros Hefc H. unfold cleanupRetainers, getField in H.
  destruct start as [a |]; [| inversion H; apply frame_refl].
  destruct (Js.get_int (nodes d) (so + ec)) as [z | | |] eqn:Hget;
    simpl in H; try (inversion H; apply frame_refl).
  - assert (Hin : 0 <= so + ec < Js.length (nodes d))
      by (apply get_int_defined; rewrite Hget; discriminate).
    destruct (Z.eq_dec efc 0) as [-> | Hne].
    + destruct (Z_lt_le_dec a (a + z + 0)) as [Hlt | Hle].
      * rewrite slices_zero_diverges in H; [discriminate | exact Hlt |].
        intros i j s. eexists. reflexivity.
      * rewrite slices_done in H by exact Hle. inversion H. apply frame_refl.
    + fold (iterateBySlice (Int a) (Int (a + z + efc)) efc (remove_edge ec so) d) in H.
      rewrite iterateBySlice_rounds in H by lia.
      eapply rounds_remove_edge_frame; eassumption.
  - assert (Hin : 0 <= so + ec < Js.length (nodes d))
      by (apply get_int_defined; rewrite Hget; discriminate).
    destruct (Z.eq_dec efc 0) as [-> | Hne].
    + destruct (Z_lt_le_dec a (a + 0 + 0)) as [Hlt | Hle].
      * rewrite slices_zero_diverges in H; [discriminate | exact Hlt |].
        intros i j s. eexists. reflexivity.
      * rewrite slices_done in H by exact Hle. inversion H. apply frame_refl.
    + fold (iterateBySlice (Int a) (Int (a + 0 + efc)) efc (remove_edge ec so) d) in H.
      rewrite iterateBySlice_rounds in H by lia.
      eapply rounds_remove_edge_frame; eassumption.
Qed.

Lemma visit_frame (c : consts) (i j : Z) (st st' : walk) :
  0 <= edgeFieldsCount c ->
  visit c i j st = Ret st' ->
  frame (data (this st)) (data (this st')) /\
  nodeOffsets (this st') = nodeOffsets (this st) /\
  edgeOffsets (this st') = edgeOffsets (this st) /\
  nodeTypeEnum (this st') = nodeTypeEnum (this st) /\
  edgeTypeEnum (this st') = edgeTypeEnum (this st).
Proof.
  intros Hefc H. unfold visit in H.
  destruct (getNodeName (this st) i) as [n | |]; simpl in H; try discriminate.
  destruct (isWeakRetainer n); simpl in H.
  - destruct (cleanupRetainers _ _ _ _ _ _) as [d' | |] eqn:Hc; simpl in H;
      try discriminate.
    inversion H; subst; simpl. split; [| auto].
    unfold advance, ownedEdgeCount in Hc.
    eapply cleanupRetainers_frame; eassumption.
  - inversion H; subst; simpl. split; [apply frame_refl | auto].
Qed.

Lemma rounds_frame (c : consts) (n : nat) :
  0 <= edgeFieldsCount c ->
  forall (i : Z) (st st' : walk),
    rounds n i (fieldSliceSize c) (visit c) st = Ret st' ->
    frame (data (this st)) (data (this st')) /\
    nodeOffsets (this st') = nodeOffsets (this st) /\
    edgeOffsets (this st') = edgeOffsets (this st) /\
    nodeTypeEnum (this st') = nodeTypeEnum (this st) /\
    edgeTypeEnum (this st') = edgeTypeEnum (this st).
Proof.
  intros Hefc. induction n as [| n IH]; intros i st st' H; simpl in H.
  - inversion H; subst. split; [apply frame_refl | auto].
  - destruct (visit c i (i + fieldSliceSize c) st) as [st1 | |] eqn:Hv; simpl in H;
      try discriminate.
    destruct (visit_frame c _ _ _ _ Hefc Hv) as (F1 & A1 & B1 & C1 & D1).
    destruct (IH _ _ _ H) as (F2 & A2 & B2 & C2 & D2).
    split; [eapply frame_trans; eassumption |].
    repeat split; congruence.
Qed.

Lemma first_pass_frame (d : HeapSnapshot) (st : walk) :
  first_pass (new_Snapshot d) = Ret st ->
  frame d (data (this st)) /\
  nodeOffsets (this st) = nodeOffsets (new_Snapshot d) /\
  edgeOffsets (this st) = edgeOffsets (new_Snapshot d) /\
  nodeTypeEnum (this st) = nodeTypeEnum (new_Snapshot d) /\
  edgeTypeEnum (this st) = edgeTypeEnum (new_Snapshot d).
Proof.
  intros Hfp.
  pose proof (length_nonneg (node_fields (meta (snapshot d)))) as Hn.
  fold (node_stride d) in Hn.
  destruct (Z.eq_dec (node_stride d) 0) as [H0 | H0].
  - rewrite first_pass_no_fields in Hfp by assumption.
    destruct (0 <? Js.length (nodes d)); [discriminate |].
    inversion Hfp; subst. simpl. split; [apply frame_refl | auto].
  - rewrite first_pass_rounds in Hfp by lia.
    apply (rounds_frame (clean_consts (new_Snapshot d))) in Hfp.
    + exact Hfp.
    + apply length_nonneg.
Qed.

(** X7. Whatever [clean()] returns, it has left the schema, the node count,
    the strings and the other top-level keys as they were, has kept the
    number of slots of the nodes array, and has not raised
    [snapshot.edge_count]; parsing the cleaned data again resolves the same
    offsets and type tables. *)
Theorem clean_frame (d d' : HeapSnapshot) (b : bool) :
  clean_data d = Ret (b, d') ->
  meta (snapshot d') = meta (snapshot d) /\
  node_count (snapshot d') = node_count (snapshot d) /\
  strings d' = strings d /\
  extras d' = extras d /\
  Js.length (nodes d') = Js.length (nodes d) /\
  edge_count (snapshot d') <= edge_count (snapshot d) /\
  new_Snapshot d' = with_data (new_Snapshot d) d'.
Proof.
  intros H. unfold clean_data, clean in H.
  destruct (first_pass (new_Snapshot d)) as [st | |] eqn:Hfp; simpl in H;
    try discriminate.
  inversion H as [[Hb Hd]]; clear H.
  destruct (first_pass_frame d st Hfp) as ([Fm Fnc Fs Fx Fn Fe _] & _).
  simpl. repeat (split; [assumption |]).
  unfold new_Snapshot, with_data. simpl. rewrite Fm. reflexivity.
Qed.

Lemma clean_frame_witness :
  exists d', clean_data scenario = Ret (true, d') /\
             strings d' = strings scenario /\
             Js.length (nodes d') = 9.
Proof.
  eexists. split; [vm_compute; reflexivity |].
  match goal with
  | |- strings ?d' = _ /\ _ =>
      destruct (clean_frame scenario d' true eq_refl) as (_ & _ & Hs & _ & Hn & _)
  end.
  split; [exact Hs | exact Hn].
Defined.

(** X8. The edges [clean()] returns hold neither a null nor a hole, and they
    are edges of the input in their original order: compaction only ever
    leaves entries out. *)
Theorem clean_compacts (d d' : HeapSnapshot) (b : bool) :
  clean_data d = Ret (b, d') ->
  forallb kept (edges d') = true /\ Subseq (edges d') (edges d).
Proof.
  intros H. unfold clean_data, clean in H.
  destruct (first_pass (new_Snapshot d)) as [st | |] eqn:Hfp; simpl in H;
    try discriminate.
  inversion H as [[Hb Hd]]; clear H.
  destruct (first_pass_frame d st Hfp) as ([_ _ _ _ _ _ Fe] & _).
  simpl. split; [apply filter_not_null_kept |].
  eapply Subseq_trans; [exact Fe | apply filter_not_null_Subseq].
Qed.

Lemma clean_compacts_witness :
  exists d', clean_data scenario = Ret (true, d') /\
             forallb kept (edges d') = true /\ Subseq (edges d') (edges scenario).
Proof.
  eexists. split; [vm_compute; reflexivity |].
  match goal with
  | |- forallb kept (edges ?d') = true /\ _ =>
      exact (clean_compacts scenario d' true eq_refl)
  end.
Defined.

(** ** A schema without a node-type table *)

Lemma no_type_field_no_enum (d : HeapSnapshot) :
  ~ In "type"%string (node_fields (meta (snapshot d))) ->
  nodeTypeEnum (new_Snapshot d) = EUndefined.
Proof.
  intros H. unfold new_Snapshot. cbn [nodeTypeEnum]. unfold fieldOffsets.
  rewrite (proj2 (prop_entries_none _ _ 0) H). reflexivity.
Qed.

Lemma first_pass_throws (d : HeapSnapshot) :
  nodeTypeEnum (new_Snapshot d) = EUndefined ->
  nodes d <> [] ->
  first_pass (new_Snapshot d) = Throws.
Proof.
  intros He Hne.
  assert (Hlen : 0 < Js.length (nodes d)).
  { unfold Js.length. destruct (nodes d); [congruence | simpl; lia]. }
  pose proof (length_nonneg (node_fields (meta (snapshot d)))) as Hn.
  fold (node_stride d) in Hn.
  destruct (Z.eq_dec (node_stride d) 0) as [H0 | H0].
  - rewrite first_pass_no_fields by assumption.
    destruct (Z.ltb_spec 0 (Js.length (nodes d))); [reflexivity | lia].
  - rewrite first_pass_rounds by lia.
    assert (Hk : (0 < slice_count 0 (Js.length (nodes d)) (node_stride d))%nat).
    { apply (slice_count_lt (node_stride d)); [lia | simpl; lia]. }
    destruct (slice_count 0 (Js.length (nodes d)) (node_stride d)) as [| n]; [lia |].
    cbn [rounds]. unfold visit at 1. simpl.
    rewrite getNodeName_no_enum by exact He. reflexivity.
Qed.

(** X9. When the node schema declares no field named type and the nodes
    array is not empty, [clean()] throws on the first node, and so do both
    variants of [main]: nothing is reported and no file is written. *)
Theorem clean_throws_without_type_field (d : HeapSnapshot) :
  ~ In "type"%string (node_fields (meta (snapshot d))) ->
  nodes d <> [] ->
  clean (new_Snapshot d) = Throws /\
  main d = Throws /\
  Stepwise.main d = Throws.
Proof.
  intros Hty Hne.
  assert (Hc : clean (new_Snapshot d) = Throws).
  { unfold clean. rewrite first_pass_throws; [reflexivity | | exact Hne].
    apply no_type_field_no_enum. exact Hty. }
  split; [exact Hc |].
  unfold main, Stepwise.main. rewrite Hc. split; reflexivity.
Qed.

Lemma clean_throws_without_type_field_witness :
  clean (new_Snapshot untyped) = Throws.
Proof.
  apply (clean_throws_without_type_field untyped).
  - simpl. intros [H | [H | H]]; [discriminate | discriminate | exact H].
  - discriminate.
Defined.

(** ** A count that is read outside the nodes *)

Lemma rounds_out_of_range (w : Snapshot) (c : consts) (n : nat) :
  nodeTypeEnum w <> EUndefined ->
  0 <= fieldSliceSize c ->
  Js.length (nodes (data w)) <= edgeCount c ->
  forall (i : Z) (st : walk),
    0 <= i ->
    this st = w ->
    exists st', rounds n i (fieldSliceSize c) (visit c) st = Ret st' /\ this st' = w.
Proof.
  intros He Hsz Hec. induction n as [| n IH]; intros i st Hi Hthis.
  - simpl. eauto.
  - cbn [rounds].
    assert (Hv : exists st1, visit c i (i + fieldSliceSize c) st = Ret st1 /\ this st1 = w).
    { unfold visit.
      destruct (getNodeName_returns (this st) i) as (nm & ->); [rewrite Hthis; exact He |].
      cbn [Js.bind]. destruct (isWeakRetainer nm); cbn [negb].
      - assert (Hadv : advance c st i = NotANumber).
        { pose proof (length_nonneg (nodes (data w))) as Hlen.
          unfold advance, ownedEdgeCount, getField, Js.get_int. rewrite Hthis.
          destruct (Z.leb_spec 0 (i + edgeCount c)); [| lia].
          destruct (Z.ltb_spec (i + edgeCount c) (Js.length (nodes (data w)))); [lia |].
          simpl. rewrite add_nan_r. reflexivity. }
        rewrite Hadv. unfold cleanupRetainers, iterateBySlice.
        destruct (nextEdgeIndex st); cbn [Js.bind]; eexists; (split; [reflexivity |]);
          simpl; rewrite Hthis; apply with_data_same.
      - eexists. split; [reflexivity | exact Hthis]. }
    destruct Hv as (st1 & -> & Ht1). cbn [Js.bind].
    apply IH; [lia | exact Ht1].
Qed.

(** X10. When [snapshot.edge_count] is at least the length of the nodes
    array, the node slot [clean()] reads as a node's edge count lies outside
    the array for every node, the cursor becomes NaN, and no pruning takes
    place: [clean()] returns with the nodes and [snapshot.edge_count]
    untouched and the edges merely compacted, retainers or not. *)
Theorem clean_count_out_of_range (d : HeapSnapshot) :
  nodeTypeEnum (new_Snapshot d) <> EUndefined ->
  Js.length (nodes d) <= edge_count (snapshot d) ->
  exists b : bool,
    clean_data d = Ret (b, with_edges d (Js.filter_not_null (edges d))).
Proof.
  intros He Hec. unfold clean_data, clean.
  rewrite first_pass_rounds by (apply enum_positive_stride; exact He).
  destruct (rounds_out_of_range (new_Snapshot d) (clean_consts (new_Snapshot d))
              (slice_count 0 (Js.length (nodes d)) (node_stride d)) He)
    with (i := 0) (st := walk_init (new_Snapshot d)) as (st & Hst & Hthis);
    try (apply length_nonneg); try exact Hec; try lia; try reflexivity.
  change (fieldSliceSize (clean_consts (new_Snapshot d))) with (node_stride d) in Hst.
  rewrite Hst. simpl. unfold compact. rewrite Hthis. simpl.
  eexists. reflexivity.
Qed.

Lemma clean_count_out_of_range_witness :
  exists b : bool,
    clean_data (with_edge_count scenario 9) =
    Ret (b, with_edge_count scenario 9).
Proof.
  destruct (clean_count_out_of_range (with_edge_count scenario 9)) as (b & Hb).
  - discriminate.
  - vm_compute. discriminate.
  - exists b. exact Hb.
Defined.

(** ** What gets pruned *)

Lemma nth_Z_In {A : Type} (l : list A) (i : Z) (x : A) :
  nth_Z l i = Some x -> In x l.
Proof.
  unfold nth_Z. destruct ((0 <=? i) && (i <? Js.length l)); [| discriminate].
  apply nth_error_In.
Qed.

(** X11. A visit of the walker changes the data only for a node whose
    decoded type string is "object" and whose name field indexes a string
    of the string table that is one of the five weak-retainer names. *)
Theorem visit_prunes_only_weak_objects (c : consts) (i j : Z) (st st' : walk) :
  visit c i j st = Ret st' ->
  this st' <> this st ->
  decoded_type (this st) i = Some "object"%string /\
  exists s : string,
    named_string (this st) i = NameString s /\
    In s WeakRetainerNames /\
    In s (strings (data (this st))).
Proof.
  intros Hv Hchg. apply visit_inv in Hv.
  destruct Hv as (nm & Hnm & _ & [(_ & Hsame & _) | (Hr & _)]); [congruence |].
  unfold getNodeName in Hnm. unfold decoded_type, named_string.
  destruct (enum_lookup (nodeTypeEnum (this st)) _) as [t | |]; simpl in Hnm;
    try discriminate.
  destruct (is_object t) eqn:Ht; simpl in Hnm;
    [| inversion Hnm; subst nm; discriminate Hr].
  inversion Hnm; subst nm; clear Hnm.
  split.
  - destruct t as [s |]; simpl in Ht; [| discriminate].
    apply String.eqb_eq in Ht. congruence.
  - unfold string_lookup in *.
    destruct (Js.get _ _) as [z | | |]; try discriminate Hr.
    destruct (nth_Z (strings (data (this st))) z) as [s |] eqn:Hs;
      [| discriminate Hr].
    exists s. split; [reflexivity |]. split.
    + unfold isWeakRetainer, has in Hr.
      rewrite negb_true_iff, orb_false_iff, negb_false_iff in Hr.
      destruct Hr as [_ Hr]. apply existsb_exists in Hr.
      destruct Hr as (x & Hx & Heq). apply String.eqb_eq in Heq. subst x. exact Hx.
    + eapply nth_Z_In. exact Hs.
Qed.

Lemma visit_prunes_only_weak_objects_witness :
  decoded_type (new_Snapshot scenario) 0 = Some "object"%string.
Proof.
  destruct (visit_prunes_only_weak_objects (clean_consts (new_Snapshot scenario)) 0 3
              (walk_init (new_Snapshot scenario))
              {| nextEdgeIndex := Int 4; totalObjects := 1; weakRetainers := 1;
                 this := with_data (new_Snapshot scenario)
                   {| snapshot := {| meta := sample_meta; node_count := 3;
                                     edge_count := 1 |};
                      nodes := of_list [1; 0; 2;  -1; 1; 1;  2; 2; 0];
                      edges := repeat (Some Null) 6 ++ of_list [2; 2; 6];
                      strings := sample_strings;
                      extras := [] |} |})
    as (Hty & _).
  - reflexivity.
  - discriminate.
  - exact Hty.
Defined.

(** ** The counters of the walk *)

Lemma visit_counters (c : consts) (i j : Z) (st st' : walk) :
  visit c i j st = Ret st' ->
  totalObjects st' = totalObjects st + 1 /\
  weakRetainers st <= weakRetainers st' <= weakRetainers st + 1.
Proof.
  unfold visit. intros H.
  destruct (getNodeName (this st) i) as [n | |]; simpl in H; try discriminate.
  destruct (isWeakRetainer n); simpl in H.
  - destruct (cleanupRetainers _ _ _ _ _ _); simpl in H; try discriminate.
    inversion H; subst; simpl. lia.
  - inversion H; subst; simpl. lia.
Qed.

Lemma rounds_counters (c : consts) (n : nat) :
  forall (i : Z) (st st' : walk),
    rounds n i (fieldSliceSize c) (visit c) st = Ret st' ->
    totalObjects st' = totalObjects st + Z.of_nat n /\
    weakRetainers st <= weakRetainers st' <= weakRetainers st + Z.of_nat n.
Proof.
  induction n as [| n IH]; intros i st st' H; cbn [rounds] in H.
  - inversion H; subst. lia.
  - destruct (visit c i (i + fieldSliceSize c) st) as [st1 | |] eqn:Hv;
      cbn [Js.bind] in H; try discriminate.
    apply visit_counters in Hv. apply IH in H. lia.
Qed.

(** X12. When the first pass returns, [totalObjects] is the number of node
    slices, one for every multiple of the node stride below
    [nodes.length], and [weakRetainers] lies between 0 and [totalObjects]. *)
Theorem first_pass_counters (d : HeapSnapshot) (st : walk) :
  first_pass (new_Snapshot d) = Ret st ->
  exists n : nat,
    totalObjects st = Z.of_nat n /\
    (forall k : nat, (k < n)%nat <-> Z.of_nat k * node_stride d < Js.length (nodes d)) /\
    0 <= weakRetainers st <= totalObjects st.
Proof.
  intros Hfp.
  pose proof (length_nonneg (node_fields (meta (snapshot d)))) as Hn.
  fold (node_stride d) in Hn.
  destruct (Z.eq_dec (node_stride d) 0) as [H0 | H0].
  - rewrite first_pass_no_fields in Hfp by assumption.
    destruct (Z.ltb_spec 0 (Js.length (nodes d))); [discriminate |].
    inversion Hfp; subst. exists O. simpl. split; [reflexivity |].
    split; [| lia]. intros k. rewrite H0. lia.
  - rewrite first_pass_rounds in Hfp by lia.
    apply (rounds_counters (clean_consts (new_Snapshot d))) in Hfp. simpl in Hfp.
    exists (slice_count 0 (Js.length (nodes d)) (node_stride d)).
    split; [lia |]. split; [| lia].
    intros k. symmetry. apply slice_count_lt. lia.
Qed.

Lemma first_pass_counters_witness :
  exists st, first_pass (new_Snapshot scenario) = Ret st /\ totalObjects st = 3.
Proof.
  eexists. split; [vm_compute; reflexivity |].
  match goal with
  | |- totalObjects ?st = _ =>
      destruct (first_pass_counters scenario st eq_refl) as (n & Ht & _ & _)
  end.
  reflexivity.
Defined.

(** ** The output path *)

Lemma append_length (a b : string) :
  String.length (a ++ b) = (String.length a + String.length b)%nat.
Proof. induction a as [| c a IH]; simpl; [reflexivity | rewrite IH; reflexivity]. Qed.

Lemma replace_extension_suffix (stem : string) :
  replace_extension (stem ++ ".heapsnapshot") = (stem ++ ".clean.heapsnapshot")%string.
Proof.
  induction stem as [| c stem IH].
  - reflexivity.
  - cbn [String.append replace_extension].
    destruct (String.eqb_spec (String c (stem ++ ".heapsnapshot")) ".heapsnapshot")
      as [Heq | Hne].
    + apply (f_equal String.length) in Heq. simpl in Heq.
      rewrite append_length in Heq. simpl in Heq. lia.
    + rewrite IH. reflexivity.
Qed.

Lemma replace_extension_other (path : string) :
  (forall stem : string, path <> (stem ++ ".heapsnapshot")%string) ->
  replace_extension path = path.
Proof.
  induction path as [| c path IH]; intros Hno.
  - reflexivity.
  - cbn [replace_extension].
    destruct (String.eqb_spec (String c path) ".heapsnapshot") as [Heq | Hne].
    + exfalso. apply (Hno EmptyString). exact Heq.
    + rewrite IH; [reflexivity |].
      intros stem Heq. apply (Hno (String c stem)). simpl. rewrite Heq. reflexivity.
Qed.

(** X13. Without a third argument (or with an empty one) an input path that
    ends in .heapsnapshot gets the output path with .clean.heapsnapshot in
    its place, whatever comes before the extension; a non-empty third
    argument is the output path as it stands. *)
Theorem outputFilePath_with_extension (stem : string) :
  outputFilePath (stem ++ ".heapsnapshot") None = (stem ++ ".clean.heapsnapshot")%string /\
  outputFilePath (stem ++ ".heapsnapshot") (Some EmptyString) =
    (stem ++ ".clean.heapsnapshot")%string /\
  forall (input p : string), p <> EmptyString -> outputFilePath input (Some p) = p.
Proof.
  unfold outputFilePath. simpl. rewrite replace_extension_suffix.
  split; [reflexivity |]. split; [reflexivity |].
  intros input p Hp. destruct (String.eqb_spec p ""); [congruence | reflexivity].
Qed.

(** X14. Without a third argument an input path that does not end in
    .heapsnapshot is its own output path: the cleaned snapshot is written
    over the input file. *)
Theorem outputFilePath_without_extension (inputFilePath : string) :
  (forall stem : string, inputFilePath <> (stem ++ ".heapsnapshot")%string) ->
  outputFilePath inputFilePath None = inputFilePath.
Proof. intros H. unfold outputFilePath. apply replace_extension_other. exact H. Qed.

Lemma outputFilePath_without_extension_witness :
  outputFilePath "heap.json" None = "heap.json"%string.
Proof.
  apply outputFilePath_without_extension.
  intros stem Heq.
  apply (f_equal (fun s => String.length s)) in Heq.
  rewrite append_length in Heq. simpl in Heq. lia.
Defined.

Lemma outputFilePath_with_extension_witness :
  outputFilePath "heap.heapsnapshot" (Some "out.json"%string) = "out.json"%string.
Proof.
  apply (proj2 (proj2 (outputFilePath_with_extension EmptyString))).
  discriminate.
Defined.

(** ** Texts written by [JSON.stringify] *)

Lemma list_of_append (a b : string) :
  list_ascii_of_string (a ++ b) = list_ascii_of_string a ++ list_ascii_of_string b.
Proof. induction a as [| c a IH]; simpl; [reflexivity | rewrite IH; reflexivity]. Qed.

Lemma scan_escape_char (c : ascii) (tail : list ascii) :
  scan_string (list_ascii_of_string (escape_char c) ++ tail) = scan_string tail.
Proof.
  destruct c as [b0 b1 b2 b3 b4 b5 b6 b7].
  destruct b0, b1, b2, b3, b4, b5, b6, b7; reflexivity.
Qed.

Lemma scan_escape (s : string) (tail : list ascii) :
  scan_string (list_ascii_of_string (escape s) ++ tail) = scan_string tail.
Proof.
  induction s as [| c s IH]; simpl; [reflexivity |].
  rewrite list_of_append, <- app_assoc, scan_escape_char. exact IH.
Qed.

(** A quoted string is scanned up to its closing quote. *)
Lemma scan_quote (s : string) (rest : list ascii) :
  list_ascii_of_string (quote s) ++ rest =
    dq :: (list_ascii_of_string (escape s) ++ dq :: rest) /\
  scan_string (list_ascii_of_string (escape s) ++ dq :: rest) = Some rest.
Proof.
  split.
  - unfold quote. simpl. rewrite list_of_append. simpl.
    rewrite <- app_assoc. reflexivity.
  - rewrite scan_escape. simpl. reflexivity.
Qed.

Lemma skip_digits_uint (d : Decimal.uint) (rest : list ascii) :
  skip_digits (list_ascii_of_string (NilEmpty.string_of_uint d) ++ rest) =
  skip_digits rest.
Proof. induction d; simpl; auto. Qed.

Lemma ends_value_fraction (rest : list ascii) :
  ends_value rest = true ->
  skip_digits rest = rest /\ scan_fraction rest = Some rest.
Proof.
  destruct rest as [| c rest]; simpl; [auto |].
  intros H. rewrite negb_true_iff in H.
  repeat (apply orb_false_iff in H; destruct H as [H ?]).
  unfold scan_exponent.
  repeat match goal with H : _ = false |- _ => rewrite H; clear H end.
  simpl. auto.
Qed.

(** The decimal digits of a positive number start with a digit other
    than 0. *)
Lemma to_uint_head (p : positive) :
  match Pos.to_uint p with
  | Decimal.Nil => False
  | Decimal.D0 _ => False
  | _ => True
  end.
Proof.
  pose proof (DecimalPos.Unsigned.to_of (Pos.to_uint p)) as Hnorm.
  rewrite DecimalPos.Unsigned.of_to in Hnorm. simpl in Hnorm.
  pose proof (DecimalPos.Unsigned.to_uint_nonnil p) as Hnil.
  pose proof (DecimalPos.Unsigned.to_uint_nonzero p) as Hzero.
  destruct (Pos.to_uint p) as [| d | d | d | d | d | d | d | d | d | d];
    try exact I; [congruence |].
  rewrite DecimalFacts.unorm_D0 in Hnorm.
  unfold Decimal.unorm in Hnorm.
  destruct (Decimal.nzhead d) eqn:Ed.
  - apply Hzero. exact Hnorm.
  - apply (DecimalFacts.nzhead_nonzero d d). rewrite Ed. symmetry. exact Hnorm.
  - discriminate Hnorm.
  - discriminate Hnorm.
  - discriminate Hnorm.
  - discriminate Hnorm.
  - discriminate Hnorm.
  - discriminate Hnorm.
  - discriminate Hnorm.
  - discriminate Hnorm.
  - discriminate Hnorm.
Qed.

(** A number written by [stringify] is scanned as one number. *)
Lemma scan_value_number (z : Z) (fuel : nat) (rest : list ascii) :
  ends_value rest = true ->
  scan_value (Datatypes.S fuel) (list_ascii_of_string (string_of_Z z) ++ rest) = Some rest.
Proof.
  intros Hrest. destruct (ends_value_fraction rest Hrest) as [Hskip Hfrac].
  unfold string_of_Z. destruct z as [| p | p]; unfold Z.to_int.
  - simpl. exact Hfrac.
  - unfold NilZero.string_of_int, NilZero.string_of_uint.
    pose proof (to_uint_head p) as Hhead.
    destruct (Pos.to_uint p) as [| d | d | d | d | d | d | d | d | d | d];
      try contradiction;
      cbn [NilEmpty.string_of_uint list_ascii_of_string app scan_value];
      simpl; rewrite skip_digits_uint, Hskip; exact Hfrac.
  - unfold NilZero.string_of_int, NilZero.string_of_uint.
    pose proof (to_uint_head p) as Hhead.
    destruct (Pos.to_uint p) as [| d | d | d | d | d | d | d | d | d | d];
      try contradiction;
      cbn [NilEmpty.string_of_uint list_ascii_of_string app scan_value];
      simpl; rewrite skip_digits_uint, Hskip; exact Hfrac.
Qed.

Lemma value_start_facts (c : ascii) :
  value_start c = true ->
  is_ws c = false /\ Ascii.eqb c "]" = false /\ Ascii.eqb c "}" = false.
Proof.
  destruct c as [b0 b1 b2 b3 b4 b5 b6 b7].
  destruct b0, b1, b2, b3, b4, b5, b6, b7; intros H;
    first [discriminate H | repeat split].
Qed.

Lemma stringify_head (j : json) :
  exists (c : ascii) (s : string), stringify j = String c s /\ value_start c = true.
Proof.
  destruct j as [| [|] | z | s | l | l];
    try (simpl; eexists; eexists; split; reflexivity).
  simpl. unfold string_of_Z. destruct z as [| p | p]; unfold Z.to_int.
  - eexists. eexists. split; reflexivity.
  - unfold NilZero.string_of_int, NilZero.string_of_uint.
    pose proof (to_uint_head p) as Hhead.
    destruct (Pos.to_uint p); try contradiction;
      eexists; eexists; split; reflexivity.
  - eexists. eexists. split; reflexivity.
Qed.

Lemma json_induction (P : json -> Prop) :
  P JNull ->
  (forall b, P (JBool b)) ->
  (forall z, P (JNumber z)) ->
  (forall s, P (JString s)) ->
  (forall l, Forall P l -> P (JArray l)) ->
  (forall l, Forall (fun kv => P (snd kv)) l -> P (JObject l)) ->
  forall j, P j.
Proof.
  intros Hnull Hbool Hnum Hstr Harr Hobj.
  fix IH 1. intros [| b | z | s | l | l].
  - exact Hnull.
  - apply Hbool.
  - apply Hnum.
  - apply Hstr.
  - apply Harr. induction l as [| x l IHl]; constructor; [apply IH | exact IHl].
  - apply Hobj. induction l as [| [k v] l IHl]; constructor; [apply IH | exact IHl].
Qed.

Lemma scan_elements_eq (f : nat) (l : list ascii) :
  scan_elements (Datatypes.S f) l =
  match scan_value f l with
  | Some r =>
      match skip_ws r with
      | c :: r1 =>
          if Ascii.eqb c "," then scan_elements f r1
          else if Ascii.eqb c "]" then Some r1
          else None
      | [] => None
      end
  | None => None
  end.
Proof. reflexivity. Qed.

Lemma scan_members_eq (f : nat) (t : list ascii) :
  scan_members (Datatypes.S f) (dq :: t) =
  match scan_string t with
  | Some r =>
      match skip_ws r with
      | c1 :: r1 =>
          if Ascii.eqb c1 ":" then
            match scan_value f r1 with
            | Some r2 =>
                match skip_ws r2 with
                | c2 :: r3 =>
                    if Ascii.eqb c2 "," then scan_members f r3
                    else if Ascii.eqb c2 "}" then Some r3
                    else None
                | [] => None
                end
            | None => None
            end
          else None
      | [] => None
      end
  | None => None
  end.
Proof. reflexivity. Qed.

Lemma scan_value_bracket (f : nat) (c : ascii) (t : list ascii) :
  value_start c = true ->
  scan_value (Datatypes.S f) ("["%char :: c :: t) = scan_elements f (c :: t).
Proof.
  intros H. destruct (value_start_facts c H) as (Hws & Hb & _).
  simpl. rewrite Hws, Hb. reflexivity.
Qed.

Lemma scan_value_brace (f : nat) (t : list ascii) :
  scan_value (Datatypes.S f) ("{"%char :: dq :: t) = scan_members f (dq :: t).
Proof. reflexivity. Qed.

Lemma scan_value_dq (f : nat) (t : list ascii) :
  scan_value (Datatypes.S f) (dq :: t) = scan_string t.
Proof. reflexivity. Qed.

Lemma join_cons (x y : string) (t : list string) :
  join "," (x :: y :: t) = (x ++ "," ++ join "," (y :: t))%string.
Proof. reflexivity. Qed.

Lemma join_head (x : json) (l : list json) :
  exists (c : ascii) (s : string),
    join "," (map stringify (x :: l)) = String c s /\ value_start c = true.
Proof.
  destruct (stringify_head x) as (c & s & Hx & Hc).
  destruct l as [| y l]; simpl map.
  - exists c, s. simpl. auto.
  - rewrite join_cons, Hx. simpl. eauto.
Qed.

Lemma scan_elements_list (l : list json) :
  Forall scans l ->
  forall (x : json) (fuel : nat) (rest : list ascii),
    scans x ->
    (fold_right (fun y acc => Datatypes.S (json_size y + acc)) O (x :: l) <= fuel)%nat ->
    scan_elements fuel
      (list_ascii_of_string (join "," (map stringify (x :: l))) ++ "]"%char :: rest)
    = Some rest.
Proof.
  induction 1 as [| y l Hy Hl IH]; intros x fuel rest Hx Hfuel;
    cbn [fold_right] in Hfuel;
    (destruct fuel as [| f]; [lia |]); rewrite scan_elements_eq.
  - simpl map. simpl join.
    rewrite (Hx f ("]"%char :: rest)) by (try reflexivity; lia).
    reflexivity.
  - simpl map. rewrite join_cons, list_of_append, <- app_assoc.
    change (list_ascii_of_string ("," ++ join "," (stringify y :: map stringify l)))
      with (","%char :: list_ascii_of_string (join "," (map stringify (y :: l)))).
    rewrite <- app_comm_cons.
    rewrite (Hx f) by (try reflexivity; lia).
    change (skip_ws (","%char :: ?t)) with (","%char :: t).
    cbn [skip_ws is_ws]. simpl Ascii.eqb.
    apply IH; [exact Hy | cbn [fold_right]; lia].
Qed.

Lemma skip_ws_colon (t : list ascii) : skip_ws (":"%char :: t) = ":"%char :: t.
Proof. reflexivity. Qed.

Lemma skip_ws_comma (t : list ascii) : skip_ws (","%char :: t) = ","%char :: t.
Proof. reflexivity. Qed.

Lemma member_dq (kv : string * json) (tail : list ascii) :
  exists t : list ascii,
    list_ascii_of_string (member_text kv) ++ tail = dq :: t.
Proof. destruct kv as [k v]. simpl. eexists. reflexivity. Qed.

Lemma members_dq (kv : string * json) (l : list (string * json)) (tail : list ascii) :
  exists t : list ascii,
    list_ascii_of_string (join "," (map member_text (kv :: l))) ++ tail = dq :: t.
Proof.
  destruct l as [| kv' l]; simpl map.
  - simpl join. apply member_dq.
  - rewrite join_cons, list_of_append, <- app_assoc. apply member_dq.
Qed.

(** One member, followed by a comma or by the closing brace. *)
Lemma scan_member (f : nat) (k : string) (v : json) (tail : list ascii) :
  scans v ->
  (json_size v <= f)%nat ->
  ends_value tail = true ->
  exists t : list ascii,
    list_ascii_of_string (member_text (k, v)) ++ tail = dq :: t /\
    scan_members (Datatypes.S f) (dq :: t) =
    match skip_ws tail with
    | c2 :: r3 =>
        if Ascii.eqb c2 "," then scan_members f r3
        else if Ascii.eqb c2 "}" then Some r3
        else None
    | [] => None
    end.
Proof.
  intros Hv Hf Htail.
  exists (list_ascii_of_string (escape k) ++
          dq :: ":"%char :: list_ascii_of_string (stringify v) ++ tail).
  split.
  - unfold member_text. rewrite list_of_append, <- app_assoc.
    rewrite (proj1 (scan_quote k _)). rewrite list_of_append. reflexivity.
  - rewrite scan_members_eq.
    rewrite (proj2 (scan_quote k _)).
    rewrite skip_ws_colon. cbv iota beta.
    change (Ascii.eqb ":" ":") with true. cbv iota.
    rewrite (Hv f tail Hf Htail). reflexivity.
Qed.

Lemma scan_members_list (l : list (string * json)) :
  Forall (fun kv => scans (snd kv)) l ->
  forall (k : string) (v : json) (fuel : nat) (rest : list ascii),
    scans v ->
    (fold_right (fun kv acc => let '(_, y) := kv in Datatypes.S (json_size y + acc))
       O ((k, v) :: l) <= fuel)%nat ->
    scan_members fuel
      (list_ascii_of_string (join "," (map member_text ((k, v) :: l))) ++ "}"%char :: rest)
    = Some rest.
Proof.
  induction 1 as [| [k' v'] l Hy Hl IH]; intros k v fuel rest Hv Hfuel;
    cbn [fold_right] in Hfuel;
    (destruct fuel as [| f]; [lia |]).
  - change (join "," (map member_text [(k, v)])) with (member_text (k, v)).
    destruct (scan_member f k v ("}"%char :: rest) Hv) as (t & -> & ->);
      [lia | reflexivity |].
    reflexivity.
  - change (map member_text ((k, v) :: (k', v') :: l))
      with (member_text (k, v) :: map member_text ((k', v') :: l)).
    change (map member_text ((k', v') :: l))
      with (member_text (k', v') :: map member_text l) at 1.
    rewrite join_cons, list_of_append, <- app_assoc.
    change (list_ascii_of_string ("," ++ join "," (member_text (k', v') :: map member_text l)))
      with (","%char :: list_ascii_of_string (join "," (map member_text ((k', v') :: l)))).
    rewrite <- app_comm_cons.
    destruct (scan_member f k v
                (","%char :: list_ascii_of_string (join "," (map member_text ((k', v') :: l)))
                   ++ "}"%char :: rest) Hv) as (t & -> & ->);
      [lia | reflexivity |].
    rewrite skip_ws_comma. cbv iota beta.
    change (Ascii.eqb "," ",") with true. cbv iota.
    apply IH; [exact Hy | cbn [fold_right]; lia].
Qed.

Lemma stringify_array (l : list json) :
  stringify (JArray l) = String "[" (join "," (map stringify l) ++ "]").
Proof. reflexivity. Qed.

Lemma stringify_object (l : list (string * json)) :
  stringify (JObject l) = String "{" (join "," (map member_text l) ++ "}").
Proof. reflexivity. Qed.

(** Every text written by [stringify] is read back as one value. *)
Lemma stringify_scans (j : json) : scans j.
Proof.
  induction j as [| b | z | s | l Hl | l Hl] using json_induction;
    intros fuel rest Hfuel Hrest; simpl json_size in Hfuel;
    (destruct fuel as [| f]; [lia |]).
  - reflexivity.
  - destruct b; reflexivity.
  - apply scan_value_number. exact Hrest.
  - simpl stringify. rewrite (proj1 (scan_quote s rest)), scan_value_dq.
    apply scan_quote.
  - destruct l as [| x l].
    + reflexivity.
    + inversion Hl as [| x' l' Hx Hl']; subst.
      destruct (join_head x l) as (c & s & HJ & Hc).
      rewrite stringify_array. cbn [list_ascii_of_string app].
      rewrite list_of_append, <- app_assoc.
      change (list_ascii_of_string "]" ++ rest) with ("]"%char :: rest).
      assert (E : list_ascii_of_string (join "," (map stringify (x :: l))) ++ "]"%char :: rest =
                  c :: (list_ascii_of_string s ++ "]"%char :: rest))
        by (rewrite HJ; reflexivity).
      rewrite E, scan_value_bracket by exact Hc. rewrite <- E.
      apply scan_elements_list; [exact Hl' | exact Hx | lia].
  - destruct l as [| [k v] l].
    + reflexivity.
    + inversion Hl as [| x' l' Hx Hl']; subst. simpl in Hx.
      rewrite stringify_object. cbn [list_ascii_of_string app].
      rewrite list_of_append, <- app_assoc.
      change (list_ascii_of_string "}" ++ rest) with ("}"%char :: rest).
      destruct (members_dq (k, v) l ("}"%char :: rest)) as (t & E).
      rewrite E, scan_value_brace. rewrite <- E.
      apply scan_members_list; [exact Hl' | exact Hx | lia].
Qed.

Lemma list_of_length (s : string) :
  List.length (list_ascii_of_string s) = String.length s.
Proof. induction s as [| c s IH]; simpl; [reflexivity | rewrite IH; reflexivity]. Qed.

Lemma elements_size (l : list json) :
  Forall (fun j => (json_size j <= String.length (stringify j))%nat) l ->
  (fold_right (fun y acc => Datatypes.S (json_size y + acc)) O l
   <= String.length (join "," (map stringify l)) + 1)%nat.
Proof.
  induction 1 as [| x l Hx Hl IH]; [simpl; lia |].
  destruct l as [| y l].
  - simpl in *. lia.
  - assert (E : join "," (map stringify (x :: y :: l)) =
                 (stringify x ++ "," ++ join "," (map stringify (y :: l)))%string)
      by reflexivity.
    rewrite E. cbn [fold_right] in *.
    remember (join "," (map stringify (y :: l))) as J eqn:EJ.
    rewrite !append_length. simpl String.length. lia.
Qed.

Lemma members_size (l : list (string * json)) :
  Forall (fun kv => (json_size (snd kv) <= String.length (stringify (snd kv)))%nat) l ->
  (fold_right (fun kv acc => let '(_, y) := kv in Datatypes.S (json_size y + acc)) O l
   <= String.length (join "," (map member_text l)) + 1)%nat.
Proof.
  induction 1 as [| [k v] l Hx Hl IH]; [simpl; lia |].
  assert (Hm : (json_size v <= String.length (member_text (k, v)))%nat).
  { unfold member_text. rewrite !append_length. simpl in Hx. lia. }
  destruct l as [| [k' v'] l].
  - change (join "," (map member_text [(k, v)])) with (member_text (k, v)).
    cbn [fold_right]. lia.
  - assert (E : join "," (map member_text ((k, v) :: (k', v') :: l)) =
                 (member_text (k, v) ++ "," ++ join "," (map member_text ((k', v') :: l)))%string)
      by reflexivity.
    rewrite E. cbn [fold_right] in *.
    remember (join "," (map member_text ((k', v') :: l))) as J eqn:EJ.
    remember (member_text (k, v)) as M eqn:EM.
    rewrite !append_length. simpl String.length. lia.
Qed.

(** The fuel the recognizer gives itself is enough. *)
Lemma json_size_le (j : json) : (json_size j <= String.length (stringify j))%nat.
Proof.
  induction j as [| b | z | s | l Hl | l Hl] using json_induction.
  - simpl. lia.
  - destruct b; simpl; lia.
  - destruct (stringify_head (JNumber z)) as (c & s & -> & _). simpl. lia.
  - simpl. lia.
  - rewrite stringify_array. cbn [json_size String.length].
    rewrite append_length. pose proof (elements_size l Hl). simpl String.length. lia.
  - rewrite stringify_object. cbn [json_size String.length].
    rewrite append_length. pose proof (members_size l Hl). simpl String.length. lia.
Qed.

Lemma stringify_object_is_json (l : list (string * json)) :
  is_json_object (stringify (JObject l)) = true.
Proof.
  unfold is_json_object.
  pose proof (stringify_scans (JObject l)
                (Datatypes.S (List.length (list_ascii_of_string (stringify (JObject l)))))
                [] ) as Hscan.
  rewrite app_nil_r in Hscan. rewrite Hscan.
  - rewrite stringify_object. reflexivity.
  - rewrite list_of_length. pose proof (json_size_le (JObject l)). lia.
  - reflexivity.
Qed.

(** X15. Whatever [main] of [src/index.ts] writes is a JSON object text:
    when [clean()] has returned true it writes one text, the
    [JSON.stringify] of the cleaned data, and the recognizer accepts it;
    when [clean()] has returned false it writes nothing. *)
Theorem main_writes_json (d : HeapSnapshot) (l : list effect) :
  main d = Ret l ->
  Forall (fun content => is_json_object content = true) (writes l) /\
  (List.length (writes l) <= 1)%nat.
Proof.
  unfold main. intros H.
  destruct (clean (new_Snapshot d)) as [[b w'] | |]; cbn [Js.bind] in H;
    try discriminate.
  destruct b; cbn [fst snd negb] in H.
  - assert (Hw : writes l = [stringify (JObject (data_entries (data w')))])
      by (injection H as <-; reflexivity).
    rewrite Hw. split; [| simpl; lia]. constructor; [| constructor].
    apply stringify_object_is_json.
  - assert (Hw : writes l = []) by (injection H as <-; reflexivity).
    rewrite Hw. split; [constructor | simpl; lia].
Qed.

Lemma main_writes_json_witness :
  exists l, main scenario = Ret l /\
            Forall (fun content => is_json_object content = true) (writes l).
Proof.
  eexists. split; [vm_compute; reflexivity |].
  match goal with
  | |- Forall _ (writes ?l) => exact (proj1 (main_writes_json scenario l eq_refl))
  end.
Defined.

(** ** The text written step by step *)

Lemma scan_value_ws (fuel : nat) (l : list ascii) :
  scan_value fuel (" "%char :: l) = scan_value fuel l.
Proof. destruct fuel; reflexivity. Qed.

Lemma scan_value_brace_ws (f : nat) (k : string) (r : list ascii) :
  scan_value (Datatypes.S f) ("{"%char :: " "%char :: list_ascii_of_string (quote k) ++ r) =
  scan_members f (list_ascii_of_string (quote k) ++ r).
Proof. rewrite (proj1 (scan_quote k r)). reflexivity. Qed.

(** A member written with a blank after its colon, as [writeOutput] does. *)
Lemma scan_member_spaced (f : nat) (k : string) (v : json) (tail : list ascii) :
  (json_size v <= f)%nat ->
  ends_value tail = true ->
  scan_members (Datatypes.S f)
    (list_ascii_of_string (quote k) ++
     ":"%char :: " "%char :: list_ascii_of_string (stringify v) ++ tail) =
  match skip_ws tail with
  | c2 :: r3 =>
      if Ascii.eqb c2 "," then scan_members f r3
      else if Ascii.eqb c2 "}" then Some r3
      else None
  | [] => None
  end.
Proof.
  intros Hf Htail.
  rewrite (proj1 (scan_quote k _)), scan_members_eq, (proj2 (scan_quote k _)).
  rewrite skip_ws_colon. cbv iota beta.
  change (Ascii.eqb ":" ":") with true. cbv iota.
  rewrite scan_value_ws, (stringify_scans v f tail Hf Htail). reflexivity.
Qed.

(** The text of [writeOutput] up to the first key after the edges. *)
Lemma writeOutput_text (d : HeapSnapshot) :
  exists rest : list ascii,
    list_ascii_of_string (writeOutput d) =
    "{"%char :: " "%char ::
      list_ascii_of_string (quote "meta") ++ ":"%char :: " "%char ::
      list_ascii_of_string (stringify (json_of_header (snapshot d))) ++ ","%char ::
      list_ascii_of_string (quote "nodes") ++ ":"%char :: " "%char ::
      list_ascii_of_string (stringify (json_of_array (nodes d))) ++ ","%char ::
      list_ascii_of_string (quote "edges") ++ ":"%char :: " "%char ::
      list_ascii_of_string (stringify (json_of_array (edges d))) ++ "}"%char ::
      dq :: rest.
Proof.
  eexists. unfold writeOutput.
  repeat rewrite list_of_append. repeat rewrite <- app_assoc.
  reflexivity.
Qed.

Lemma skip_ws_brace (t : list ascii) : skip_ws ("{"%char :: t) = "{"%char :: t.
Proof. reflexivity. Qed.

Ltac list_length :=
  repeat (first [rewrite length_app | progress cbn [List.length]]);
  rewrite ?list_of_length.

(** The recognizer reads the keys meta, nodes and edges, meets the closing
    brace written after the edges, and is left with the text that follows,
    which begins with the key strings. *)
Lemma writeOutput_rejected (d : HeapSnapshot) :
  is_json_object (writeOutput d) = false.
Proof.
  destruct (writeOutput_text d) as (rest & EQ).
  unfold is_json_object. rewrite EQ.
  remember (json_of_header (snapshot d)) as h eqn:Eh.
  remember (json_of_array (nodes d)) as n eqn:En.
  remember (json_of_array (edges d)) as e eqn:Ee.
  rewrite skip_ws_brace. cbv iota beta.
  change (Ascii.eqb "{" "{") with true. cbn [andb].
  match goal with
  | |- context [scan_value (Datatypes.S (List.length ?L)) _] =>
      remember (List.length L) as F eqn:EF
  end.
  assert (Hh : (json_size h + 3 <= F)%nat).
  { rewrite EF. list_length. pose proof (json_size_le h). lia. }
  assert (Hn : (json_size n + 3 <= F)%nat).
  { rewrite EF. list_length. pose proof (json_size_le n). lia. }
  assert (He : (json_size e + 3 <= F)%nat).
  { rewrite EF. list_length. pose proof (json_size_le e). lia. }
  clear EF EQ.
  destruct F as [| [| [| F]]]; try lia.
  rewrite scan_value_brace_ws.
  rewrite scan_member_spaced by (try reflexivity; lia).
  rewrite skip_ws_comma. cbv iota beta.
  change (Ascii.eqb "," ",") with true. cbv iota.
  rewrite scan_member_spaced by (try reflexivity; lia).
  rewrite skip_ws_comma. cbv iota beta.
  change (Ascii.eqb "," ",") with true. cbv iota.
  rewrite scan_member_spaced by (try reflexivity; lia).
  reflexivity.
Qed.

(** X16. For every snapshot the text [writeOutput] writes is no JSON
    object, because of the closing brace it writes after the edges; so
    whenever the step-wise [main] writes a file, that file is no JSON
    object. *)
Theorem writeOutput_never_json (d : HeapSnapshot) :
  is_json_object (writeOutput d) = false /\
  forall l : list effect,
    Stepwise.main d = Ret l ->
    Forall (fun content => is_json_object content = false) (writes l).
Proof.
  split; [apply writeOutput_rejected |].
  unfold Stepwise.main. intros l H.
  destruct (clean (new_Snapshot d)) as [[b w'] | |]; cbn [Js.bind] in H;
    try discriminate.
  destruct b; cbn [fst snd negb] in H.
  - assert (Hw : writes l = [writeOutput (data w')])
      by (injection H as <-; reflexivity).
    rewrite Hw. constructor; [apply writeOutput_rejected | constructor].
  - assert (Hw : writes l = []) by (injection H as <-; reflexivity).
    rewrite Hw. constructor.
Qed.

Lemma writeOutput_never_json_witness :
  exists l, Stepwise.main scenario = Ret l /\
            Forall (fun content => is_json_object content = false) (writes l).
Proof.
  eexists. split; [vm_compute; reflexivity |].
  match goal with
  | |- Forall _ (writes ?l) =>
      exact (proj2 (writeOutput_never_json scenario) l eq_refl)
  end.
Defined.

Lemma fieldOffsets_undefined_witness :
  prop (fieldOffsets ["name"; "edge_count"]%string) "type" = None.
Proof.
  apply (proj2 (fieldOffsets_undefined ["name"; "edge_count"]%string "type"
                  ltac:(intros H; simpl in H;
                        repeat (destruct H as [H | H]; [discriminate H |]);
                        exact H))).
  simpl. intros [H | [H | H]]; [discriminate | discriminate | exact H].
Defined.

Lemma fieldOffsets_last_position_witness :
  prop (fieldOffsets ["type"; "name"; "type"]%string) "type" = Some 2.
Proof.
  apply (proj2 (fieldOffsets_last_position ["type"; "name"; "type"]%string "type" 2)).
  exists 2%nat. split; [reflexivity |]. split; [reflexivity |].
  intros m Hm. destruct m as [| [| [| m]]]; try lia.
  simpl. destruct m; discriminate.
Defined.

(** ** A schema without edge fields *)

(** X17. When the schema has no edge fields and the first node classifies
    as a weak retainer whose count read is positive, [clean()] never
    returns: the pruner's loop steps by 0 through a non-empty run. *)
Theorem clean_diverges_without_edge_fields (d : HeapSnapshot) (nm : node_name) (z : Z) :
  edge_fields (meta (snapshot d)) = [] ->
  getNodeName (new_Snapshot d) 0 = Ret nm ->
  isWeakRetainer nm = true ->
  getField (nodes d) 0 (edge_count (snapshot d)) = Num z ->
  0 < z ->
  clean (new_Snapshot d) = Diverges.
Proof.
  intros Hef Hnm Hr Hz Hpos.
  assert (He : nodeTypeEnum (new_Snapshot d) <> EUndefined).
  { intros He. rewrite getNodeName_no_enum in Hnm by exact He. discriminate. }
  assert (Hlen : 0 < Js.length (nodes d)).
  { unfold getField in Hz.
    assert (Js.get_int (nodes d) (0 + edge_count (snapshot d)) <> Undefined)
      by (rewrite Hz; discriminate).
    apply get_int_defined in H. lia. }
  pose proof (enum_positive_stride d He) as Hs.
  unfold clean. rewrite first_pass_rounds by exact Hs.
  assert (Hk : (0 < slice_count 0 (Js.length (nodes d)) (node_stride d))%nat).
  { apply (slice_count_lt (node_stride d)); [exact Hs | simpl; lia]. }
  destruct (slice_count 0 (Js.length (nodes d)) (node_stride d)) as [| n]; [lia |].
  cbn [rounds]. unfold visit at 1. cbn [walk_init this].
  rewrite Hnm. cbn [Js.bind]. rewrite Hr. cbn [negb].
  unfold advance, ownedEdgeCount. cbn [walk_init this nextEdgeIndex data new_Snapshot].
  change (edgeCount (clean_consts (new_Snapshot d))) with (edge_count (snapshot d)).
  rewrite Hz.
  change (edgeFieldsCount (clean_consts (new_Snapshot d)))
    with (Js.length (edge_fields (meta (snapshot d)))).
  rewrite Hef. unfold cleanupRetainers.
  cbn [Js.ToNumber Js.add Js.length List.length Z.of_nat].
  unfold iterateBySlice.
  rewrite slices_zero_diverges; [reflexivity | lia |].
  intros i j s. unfold remove_edge. eexists. reflexivity.
Qed.

Lemma clean_diverges_without_edge_fields_witness :
  clean (new_Snapshot stuck) = Diverges.
Proof.
  apply (clean_diverges_without_edge_fields stuck (NameString "WeakMap") 1);
    try reflexivity.
Defined.
